(** * ScaPyra: inverse kinematics of a two-arm planar SCARA manipulator

    A shallow embedding of [ScaPyra/geometry.py], [ScaPyra/scara.py] and
    [ScaPyra/cli.py].

    Number models.  Python [float] and numpy [float64] values are IEEE 754
    binary64 numbers.  The controller and the geometry are first embedded
    over the real numbers ([R]): every arithmetic operation is the exact
    one, so rounding, overflow, infinities and NaN are outside that model.
    It carries the statements about control flow, state and commands, and
    about the geometry in exact arithmetic.  The functions of
    [geometry.py] are embedded a second time over binary64 values (module
    [F64], Rocq's primitive floats): there every operation rounds as the
    machine does and NaN exists.  Statements that turn on a rounded
    comparison are made about the module [F64].  Python [int] values (pulse
    widths, channel numbers, step counts) are [Z].

    Effect model.  The controller object is split into its construction-time
    constants ([Config]) and the attributes that methods touch ([State]): the
    TCP position and the sequence of commands received by the PWM driver.
    Methods are computations of the monad [M], which threads the state and
    keeps it when an exception is raised, as Python does. *)

From Corelib Require Import PrimFloat SpecFloat FloatOps FloatAxioms.
From Stdlib Require Import String.
From Stdlib Require Import Reals Lra Lia ZArith List Bool.
Import ListNotations.
Open Scope list_scope.
Open Scope R_scope.

(** Decimal literals of binary64 numbers denote the nearest binary64 value,
    as they do in Python. *)
#[local] Set Warnings "-inexact-float".

(* ===================================================================== *)
(** * Numeric primitives of Python and numpy *)
(* ===================================================================== *)

Module PyNum.

(** Comparisons as the conditions of an [if]. *)
Definition Rltb (a b : R) : bool := if Rlt_dec a b then true else false.
Definition Rleb (a b : R) : bool := if Rle_dec a b then true else false.
Definition Rgtb (a b : R) : bool := Rltb b a.
Definition Rgeb (a b : R) : bool := Rleb b a.
Definition Reqb (a b : R) : bool := if Req_dec_T a b then true else false.

(** [math.floor] on a float. *)
Definition floor (a : R) : Z := Int_part a.

(** Python's [a % m] on floats, for a positive modulus: the result has the
    sign of [m]. *)
Definition py_mod (a m : R) : R := a - m * IZR (floor (a / m)).

(** Python 3 [round(a)] with one argument: the nearest integer, a tie going
    to the even one. *)
Definition py_round (a : R) : Z :=
  let f := floor a in
  let r := a - IZR f in
  if Rltb r (1 / 2) then f
  else if Rltb (1 / 2) r then (f + 1)%Z
  else if Z.even f then f else (f + 1)%Z.

(** [np.arctan2(dy, dx)]: the angle of the vector [(dx, dy)], in
    [(-PI, PI]], with [arctan2(0, 0) = 0]. *)
Definition arctan2 (dy dx : R) : R :=
  if Rltb 0 dx then atan (dy / dx)
  else if Rltb dx 0 then
    (if Rleb 0 dy then atan (dy / dx) + PI else atan (dy / dx) - PI)
  else if Rltb 0 dy then PI / 2
  else if Rltb dy 0 then - (PI / 2)
  else 0.

(** [np.degrees]. *)
Definition degrees (a : R) : R := a * 180 / PI.

(** [np.isnan]: no real number is a NaN. *)
Definition isnan (a : R) : bool := false.

(** [np.linalg.norm] of a vector. *)
Definition norm (v : list R) : R :=
  sqrt (fold_right (fun c acc => c * c + acc) 0 v).

(** [np.argmin] of a vector: the index of the first occurrence of the
    least element. *)
Fixpoint argmin_from (best : R) (besti i : nat) (v : list R) : nat :=
  match v with
  | [] => besti
  | c :: v' =>
      if Rltb c best then argmin_from c i (S i) v'
      else argmin_from best besti (S i) v'
  end.

Definition argmin (v : list R) : nat :=
  match v with
  | [] => 0%nat
  | c :: v' => argmin_from c 0 1 v'
  end.

End PyNum.
Import PyNum.

(* ===================================================================== *)
(** * numpy arrays and the Python values the geometry functions accept *)
(* ===================================================================== *)

(** An array is its shape and its elements in row-major order. *)
Record ndarray : Type := mk_ndarray {
  shape : list nat;
  data : list R
}.

Definition wf_ndarray (a : ndarray) : Prop :=
  length (data a) = fold_right Nat.mul 1%nat (shape a).

(** [np.array([x, y])]. *)
Definition array1 (v : list R) : ndarray :=
  {| shape := [length v]; data := v |}.

(** [np.stack((p, q))] of two vectors of length 2. *)
Definition stack2 (p q : list R) : ndarray :=
  {| shape := [2%nat; 2%nat]; data := p ++ q |}.

(** [a[i]] for a vector. *)
Definition item (a : ndarray) (i : nat) : R := nth i (data a) 0.

(** [a[:, 0]] for a two-dimensional array. *)
Definition column0 (a : ndarray) : list R :=
  match shape a with
  | [rows; cols] => map (fun i => nth (i * cols) (data a) 0) (seq 0 rows)
  | _ => []
  end.

(** [a[i]] for a two-dimensional array: its row [i]. *)
Definition row (a : ndarray) (i : nat) : ndarray :=
  match shape a with
  | [_; cols] =>
      {| shape := [cols]; data := firstn cols (skipn (i * cols) (data a)) |}
  | _ => a
  end.

(** The arguments the geometry functions test with [is None] and
    [isinstance(_, np.ndarray)]. *)
Inductive pyobj : Type :=
| PyNone
| PyOther            (* any object that is not an ndarray, such as a list *)
| PyArray (a : ndarray).

Definition shape_eqb (s t : list nat) : bool :=
  if list_eq_dec Nat.eq_dec s t then true else false.

(* ===================================================================== *)
(** * geometry.py *)
(* ===================================================================== *)

Definition eps : R := 1 / 1000000000.

(** [find_circle_intersections(p1, r1, p2, r2)].  The centres are taken
    after [np.asarray(_, dtype=float).reshape(-1)], as flat lists.  The
    bound [-1e-9] of the near-tangent guard is written [- eps]. *)
Definition find_circle_intersections
    (p1 : list R) (r1 : R) (p2 : list R) (r2 : R) : option ndarray :=
  match p1, p2 with
  | [p1x; p1y], [p2x; p2y] =>
      let d := norm [p2x - p1x; p2y - p1y] in
      if Rgtb d (r1 + r2) || Rltb d (Rabs (r1 - r2)) || Rltb d eps then None
      else
        let a := (r1 ^ 2 - r2 ^ 2 + d ^ 2) / (2 * d) in
        let h_sq := r1 ^ 2 - a ^ 2 in
        let h_sq' :=
          if Rltb h_sq 0
          then (if Rgtb h_sq (- eps) then Some 0 else None)
          else Some h_sq in
        match h_sq' with
        | None => None
        | Some h_sq =>
            let h := sqrt h_sq in
            let p3x := p1x + a * (p2x - p1x) / d in
            let p3y := p1y + a * (p2y - p1y) / d in
            let offx := h * (- (p2y - p1y)) / d in
            let offy := h * (p2x - p1x) / d in
            Some (stack2 [p3x + offx; p3y + offy] [p3x - offx; p3y - offy])
        end
  | _, _ => None
  end.

(** [select_intersection_point(intersections)]. *)
Definition select_intersection_point (intersections : pyobj) : option ndarray :=
  match intersections with
  | PyNone | PyOther => None
  | PyArray a =>
      if negb (shape_eqb (shape a) [2%nat; 2%nat]) then None
      else
        let idx := argmin (column0 a) in
        Some (row a idx)
  end.

(** [calculate_angle(point, intersection)]. *)
Definition calculate_angle (point intersection : pyobj) : option R :=
  match point, intersection with
  | PyArray p, PyArray q =>
      if negb (shape_eqb (shape p) [2%nat])
         || negb (shape_eqb (shape q) [2%nat]) then None
      else
        let dx := item q 0 - item p 0 in
        let dy := item q 1 - item p 1 in
        let angle := degrees (arctan2 dy dx) in
        if isnan angle then None
        else
          let angle := if Rltb angle 0 then angle + 360 else angle in
          Some angle
  | _, _ => None
  end.

(* ===================================================================== *)
(** * geometry.py over binary64 numbers *)
(* ===================================================================== *)

(** The two numeric functions of [geometry.py] once more, over binary64
    values.  [+], [-], [*], [/], [abs], [np.sqrt] and the comparisons are
    the IEEE 754 operations of the machine, which Rocq's primitive floats
    compute bit for bit.  Three operations come from libraries whose
    rounding IEEE 754 does not fix, and are arguments of the functions that
    use them: [np.linalg.norm], [x ** 2] (the C library's [pow]) and
    [np.arctan2]. *)
Module F64.

Local Open Scope float_scope.

Record ndarray : Type := mk_ndarray {
  shape : list nat;
  data : list float
}.

(** [np.array([x, y])]. *)
Definition array1 (v : list float) : ndarray :=
  {| shape := [length v]; data := v |}.

(** [np.stack((p, q))] of two vectors of length 2. *)
Definition stack2 (p q : list float) : ndarray :=
  {| shape := [2%nat; 2%nat]; data := p ++ q |}.

(** [a[i]] for a vector. *)
Definition item (a : ndarray) (i : nat) : float := nth i (data a) 0.

Inductive pyobj : Type :=
| PyNone
| PyOther
| PyArray (a : ndarray).

Definition eps : float := 1e-9.

(** [np.sqrt(x.dot(x))] with every product and the sum rounded to nearest:
    one function that [np.linalg.norm] can be. *)
Definition norm_rn (v : list float) : float :=
  PrimFloat.sqrt (fold_left (fun acc c => acc + c * c) v 0).

(** The square rounded to nearest: one function that [x ** 2] can be. *)
Definition square_rn (a : float) : float := a * a.

Section Solver.

Variable norm : list float -> float.
Variable square : float -> float.

(** [find_circle_intersections(p1, r1, p2, r2)], the centres taken after
    [np.asarray(_, dtype=float).reshape(-1)], as flat lists. *)
Definition find_circle_intersections
    (p1 : list float) (r1 : float) (p2 : list float) (r2 : float)
  : option ndarray :=
  match p1, p2 with
  | [p1x; p1y], [p2x; p2y] =>
      let d := norm [p2x - p1x; p2y - p1y] in
      if (r1 + r2 <? d) || (d <? abs (r1 - r2)) || (d <? eps) then None
      else
        let a := (square r1 - square r2 + square d) / (2 * d) in
        let h_sq := square r1 - square a in
        let h_sq' :=
          if h_sq <? 0
          then (if -1e-9 <? h_sq then Some 0 else None)
          else Some h_sq in
        match h_sq' with
        | None => None
        | Some h_sq =>
            let h := PrimFloat.sqrt h_sq in
            let p3x := p1x + a * (p2x - p1x) / d in
            let p3y := p1y + a * (p2y - p1y) / d in
            let offx := h * (- (p2y - p1y)) / d in
            let offy := h * (p2x - p1x) / d in
            Some (stack2 [p3x + offx; p3y + offy] [p3x - offx; p3y - offy])
        end
  | _, _ => None
  end.

End Solver.

(** [np.degrees]: the product with the constant 180.0 / pi, pi being the
    binary64 number nearest to the circle constant. *)
Definition degrees (a : float) : float := a * (180 / 0x1.921fb54442d18p+1).

Section Bearing.

Variable arctan2 : float -> float -> float.

(** [calculate_angle(point, intersection)]. *)
Definition calculate_angle (point intersection : pyobj) : option float :=
  match point, intersection with
  | PyArray p, PyArray q =>
      if negb (shape_eqb (shape p) [2%nat])
         || negb (shape_eqb (shape q) [2%nat]) then None
      else
        let dx := item q 0 - item p 0 in
        let dy := item q 1 - item p 1 in
        let angle := degrees (arctan2 dy dx) in
        if is_nan angle then None
        else
          let angle := if angle <? 0 then angle + 360 else angle in
          Some angle
  | _, _ => None
  end.

End Bearing.

End F64.

(* ===================================================================== *)
(** * Exceptions, and the monad of controller methods *)
(* ===================================================================== *)

Inductive exn : Type :=
| ValueError
| ZeroDivisionError.

Inductive outcome (A : Type) : Type :=
| Return (a : A)
| Raise (e : exn).
Arguments Return {A} a.
Arguments Raise {A} e.

(** Modelled from the spec: the PWM driver ([ScaPyra/driver.py], class
    [PCA9685]) is the actuator interface "set channel C to pulse-width P",
    which returns nothing to the solver.  The driver object is the list of
    the commands it has received, oldest first. *)
Inductive pwm_command : Type :=
| setPWMFreq (hz : Z)
| setServoPulse (channel : Z) (pulse : Z).

(** The attributes of a controller that change after construction. *)
Record State : Type := mk_State {
  x : R;
  y : R;
  pwm : list pwm_command
}.

Definition M (A : Type) : Type := State -> outcome A * State.

Definition ret {A} (a : A) : M A := fun st => (Return a, st).
Definition raise {A} (e : exn) : M A := fun st => (Raise e, st).
Definition bind {A B} (c : M A) (k : A -> M B) : M B :=
  fun st =>
    match c st with
    | (Return a, st') => k a st'
    | (Raise e, st') => (Raise e, st')
    end.
Definition lift {A} (o : outcome A) : M A := fun st => (o, st).

Declare Scope py_scope.
Delimit Scope py_scope with py.
Notation "v <- c ;; k" := (bind c (fun v => k))
  (at level 61, c at next level, right associativity) : py_scope.
Notation "c ;; k" := (bind c (fun _ => k))
  (at level 61, right associativity) : py_scope.
Open Scope py_scope.

(** [self.x = tx; self.y = ty]. *)
Definition set_tcp (tx ty : R) : M unit :=
  fun st => (Return tt, {| x := tx; y := ty; pwm := pwm st |}).

(** [self.pwm.setServoPulse(channel, pulse)]. *)
Definition pwm_setServoPulse (channel pulse : Z) : M unit :=
  fun st =>
    (Return tt,
     {| x := x st; y := y st; pwm := pwm st ++ [setServoPulse channel pulse] |}).

(** Python's [a / b] on floats. *)
Definition py_div (a b : R) : outcome R :=
  if Reqb b 0 then Raise ZeroDivisionError else Return (a / b).

(** [time.sleep(secs)]: only a negative argument is observable. *)
Definition sleep (secs : R) : M unit :=
  if Rltb secs 0 then raise ValueError else ret tt.

(** [np.linspace(start, stop, num)] with the default [endpoint=True]. *)
Definition linspace (start stop : R) (num : Z) : outcome (list R) :=
  if (num <? 0)%Z then Raise ValueError
  else
    let div := (num - 1)%Z in
    let delta := stop - start in
    let idx := map INR (seq 0 (Z.to_nat num)) in
    let ys :=
      if (0 <? div)%Z
      then map (fun i => i * (delta / IZR div) + start) idx
      else map (fun i => i * delta + start) idx in
    Return (if (1 <? num)%Z then removelast ys ++ [stop] else ys).

(* ===================================================================== *)
(** * scara.py: class SCARAController *)
(* ===================================================================== *)

(** The attributes that [__init__] sets and no method changes. *)
Record Config : Type := mk_Config {
  motor1_channel : Z;
  motor2_channel : Z;
  lift_servo_channel : Z;
  engine_spacing : R;
  arm : R;
  forearm : R;
  max_angle : R;
  min_pulse : Z;
  max_pulse : Z;
  motor1_angle_offset : R;
  motor2_angle_offset : R;
  x1 : R;
  y1 : R;
  x2 : R;
  y2 : R
}.

(** [SCARAController.__init__], with a freshly created driver: the
    configuration and the initial state of the new controller.  The
    arguments are those of the constructor, in its order, without [pwm]. *)
Definition SCARAController
    (motor1_channel motor2_channel lift_servo_channel : Z)
    (x y engine_spacing arm forearm max_angle : R)
    (min_pulse max_pulse : Z)
    (motor1_angle_offset motor2_angle_offset : R) : Config * State :=
  ({| motor1_channel := motor1_channel;
      motor2_channel := motor2_channel;
      lift_servo_channel := lift_servo_channel;
      engine_spacing := engine_spacing;
      arm := arm;
      forearm := forearm;
      max_angle := max_angle;
      min_pulse := min_pulse;
      max_pulse := max_pulse;
      motor1_angle_offset := motor1_angle_offset;
      motor2_angle_offset := motor2_angle_offset;
      x1 := - engine_spacing / 2;
      y1 := - 50;
      x2 := engine_spacing / 2;
      y2 := - 50 |},
   {| x := x; y := y; pwm := [setPWMFreq 50] |}).

(** [SCARAController()] with every default argument. *)
Definition default_controller : Config * State :=
  SCARAController 0 1 2 0 100 160 180 260 270 2590 570 68 214.

(** [SCARAController(motor2_angle_offset=0.0)]: the default controller
    with a different calibration of motor 2. *)
Definition detuned_controller : Config * State :=
  SCARAController 0 1 2 0 100 160 180 260 270 2590 570 68 0.

(** [SCARAController(max_angle=0.0)]: the default controller with an
    angular range of zero width. *)
Definition zero_span_controller : Config * State :=
  SCARAController 0 1 2 0 100 160 180 260 0 2590 570 68 214.

(** The dictionary returned by a successful [flat_move]. *)
Record MoveData : Type := mk_MoveData {
  md_x1 : R; md_y1 : R; md_r1 : R;
  md_x2 : R; md_y2 : R; md_r2 : R;
  md_x3 : R; md_y3 : R; md_r3 : R;
  md_intersection1 : ndarray;
  md_intersection2 : ndarray;
  md_angle1 : R;
  md_angle2 : R
}.

Section Controller.

Variable self : Config.

(** The first statement of [angle_to_pulse]: the offset of the motor. *)
Definition motor_offset (motor : string) : outcome R :=
  if String.eqb motor "motor1" then Return (motor1_angle_offset self)
  else if String.eqb motor "motor2" then Return (motor2_angle_offset self)
  else Raise ValueError.

(** [adjusted_angle] after the [% 360]. *)
Definition adjusted (angle angle_offset : R) : R :=
  py_mod (angle - angle_offset) 360.

(** [angle_to_pulse(self, angle, motor)]. *)
Definition angle_to_pulse (angle : R) (motor : string) : outcome Z :=
  match motor_offset motor with
  | Raise e => Raise e
  | Return angle_offset =>
      let adjusted_angle := angle - angle_offset in
      let adjusted_angle := py_mod adjusted_angle 360 in
      if negb (Rleb 0 adjusted_angle && Rleb adjusted_angle (max_angle self))
      then Raise ValueError
      else
        match py_div adjusted_angle (max_angle self) with
        | Raise e => Raise e
        | Return q =>
            Return (py_round
                      (q * IZR (max_pulse self - min_pulse self)
                       + IZR (min_pulse self)))
        end
  end.

(** [flat_move(self, target_x, target_y)]. *)
Definition flat_move (target_x target_y : R) : M (option MoveData) :=
  if Rltb target_y 0 then ret None
  else
    let r1 := arm self in
    let r2 := arm self in
    let intersections1 :=
      find_circle_intersections
        [x1 self; y1 self] r1 [target_x; target_y] (forearm self) in
    let intersections2 :=
      find_circle_intersections
        [x2 self; y2 self] r2 [target_x; target_y] (forearm self) in
    match intersections1, intersections2 with
    | Some i1, Some i2 =>
        let selected_intersection1 := select_intersection_point (PyArray i1) in
        let selected_intersection2 := select_intersection_point (PyArray i2) in
        match selected_intersection1, selected_intersection2 with
        | Some s1, Some s2 =>
            let angle1 :=
              calculate_angle (PyArray (array1 [x1 self; y1 self])) (PyArray s1) in
            let angle2 :=
              calculate_angle (PyArray (array1 [x2 self; y2 self])) (PyArray s2) in
            match angle1, angle2 with
            | Some angle1, Some angle2 =>
                if Rltb angle1 45 || Rgtb angle1 315 then ret None
                else if negb (Rleb angle2 135 || Rgeb angle2 225) then ret None
                else
                  set_tcp target_x target_y ;;
                  pulse1 <- lift (angle_to_pulse angle1 "motor1") ;;
                  pwm_setServoPulse (motor1_channel self) pulse1 ;;
                  pulse2 <- lift (angle_to_pulse angle2 "motor2") ;;
                  pwm_setServoPulse (motor2_channel self) pulse2 ;;
                  ret (Some
                         {| md_x1 := x1 self; md_y1 := y1 self; md_r1 := r1;
                            md_x2 := x2 self; md_y2 := y2 self; md_r2 := r2;
                            md_x3 := target_x; md_y3 := target_y;
                            md_r3 := forearm self;
                            md_intersection1 := s1;
                            md_intersection2 := s2;
                            md_angle1 := angle1;
                            md_angle2 := angle2 |})
            | _, _ => ret None
            end
        | _, _ => ret None
        end
    | _, _ => ret None
    end.

(** The body of the [for] loop of [interpolated_flat_move], over the
    waypoints that remain. *)
Fixpoint visit (delay : R) (waypoints : list (R * R)) : M bool :=
  match waypoints with
  | [] => ret true
  | (x_val, y_val) :: rest =>
      move_data <- flat_move x_val y_val ;;
      match move_data with
      | None => ret false
      | Some _ => sleep delay ;; visit delay rest
      end
  end.

(** [interpolated_flat_move(self, target_x, target_y, steps, delay)]. *)
Definition interpolated_flat_move
    (target_x target_y : R) (steps : Z) (delay : R) : M bool :=
  fun st =>
    (x_values <- lift (linspace (x st) target_x steps) ;;
     y_values <- lift (linspace (y st) target_y steps) ;;
     visit delay (combine x_values y_values)) st.

End Controller.

(* ===================================================================== *)
(** * The stages of [flat_move], named *)
(* ===================================================================== *)

(** These definitions cut [flat_move] into its validation and its
    actuation.  [flat_move] above does not use them; [flat_move_stages]
    below proves that it is their composition. *)

(** The angle [calculate_angle] returns for the displacement (dx, dy). *)
Definition bearing (dy dx : R) : R :=
  let angle := degrees (arctan2 dy dx) in
  if Rltb angle 0 then angle + 360 else angle.

(** One arm through lines 90-110: the intersections of the circle around
    the pivot (px, py) with the circle around the target, the selected
    point, and its angle seen from the pivot. *)
Definition arm_angle (px py r tx ty f : R) : option (ndarray * R) :=
  match find_circle_intersections [px; py] r [tx; ty] f with
  | Some i =>
      match select_intersection_point (PyArray i) with
      | Some s =>
          match calculate_angle (PyArray (array1 [px; py])) (PyArray s) with
          | Some angle => Some (s, angle)
          | None => None
          end
      | None => None
      end
  | None => None
  end.

Section Stages.

Variable self : Config.

(** Lines 87-113 of scara.py: both circle intersections, both selections
    and both angles, without the test on [target_y] and without the
    workspace bands.  [None] when one of the three stages yields [None]. *)
Definition candidate (target_x target_y : R) : option MoveData :=
  match
    find_circle_intersections
      [x1 self; y1 self] (arm self) [target_x; target_y] (forearm self),
    find_circle_intersections
      [x2 self; y2 self] (arm self) [target_x; target_y] (forearm self)
  with
  | Some i1, Some i2 =>
      match select_intersection_point (PyArray i1),
            select_intersection_point (PyArray i2) with
      | Some s1, Some s2 =>
          match calculate_angle (PyArray (array1 [x1 self; y1 self])) (PyArray s1),
                calculate_angle (PyArray (array1 [x2 self; y2 self])) (PyArray s2)
          with
          | Some angle1, Some angle2 =>
              Some {| md_x1 := x1 self; md_y1 := y1 self; md_r1 := arm self;
                      md_x2 := x2 self; md_y2 := y2 self; md_r2 := arm self;
                      md_x3 := target_x; md_y3 := target_y;
                      md_r3 := forearm self;
                      md_intersection1 := s1;
                      md_intersection2 := s2;
                      md_angle1 := angle1;
                      md_angle2 := angle2 |}
          | _, _ => None
          end
      | _, _ => None
      end
  | _, _ => None
  end.

(** The angles of lines 109-110, when they are computed. *)
Definition joint_angles (target_x target_y : R) : option (R * R) :=
  match candidate target_x target_y with
  | Some d => Some (md_angle1 d, md_angle2 d)
  | None => None
  end.

(** Lines 116-119: the workspace bands, as the condition to go on. *)
Definition in_workspace (angle1 angle2 : R) : bool :=
  negb (Rltb angle1 45 || Rgtb angle1 315)
  && (Rleb angle2 135 || Rgeb angle2 225).

(** Lines 83-119: every validation of [flat_move]. *)
Definition solve (target_x target_y : R) : option MoveData :=
  if Rltb target_y 0 then None
  else
    match candidate target_x target_y with
    | Some d =>
        if in_workspace (md_angle1 d) (md_angle2 d) then Some d else None
    | None => None
    end.

(** Lines 122-141: what [flat_move] does once the target is validated. *)
Definition actuate (d : MoveData) : M (option MoveData) :=
  set_tcp (md_x3 d) (md_y3 d) ;;
  pulse1 <- lift (angle_to_pulse self (md_angle1 d) "motor1") ;;
  pwm_setServoPulse (motor1_channel self) pulse1 ;;
  pulse2 <- lift (angle_to_pulse self (md_angle2 d) "motor2") ;;
  pwm_setServoPulse (motor2_channel self) pulse2 ;;
  ret (Some d).

(** The validation stage at which a target is turned down. *)
Inductive Rejected (target_x target_y : R) : Prop :=
| reject_negative_y :
    target_y < 0 -> Rejected target_x target_y
| reject_no_intersection :
    find_circle_intersections
      [x1 self; y1 self] (arm self) [target_x; target_y] (forearm self) = None
    \/ find_circle_intersections
         [x2 self; y2 self] (arm self) [target_x; target_y] (forearm self) = None ->
    Rejected target_x target_y
| reject_no_selection (i1 i2 : ndarray) :
    find_circle_intersections
      [x1 self; y1 self] (arm self) [target_x; target_y] (forearm self) = Some i1 ->
    find_circle_intersections
      [x2 self; y2 self] (arm self) [target_x; target_y] (forearm self) = Some i2 ->
    select_intersection_point (PyArray i1) = None
    \/ select_intersection_point (PyArray i2) = None ->
    Rejected target_x target_y
| reject_no_angle (i1 i2 s1 s2 : ndarray) :
    find_circle_intersections
      [x1 self; y1 self] (arm self) [target_x; target_y] (forearm self) = Some i1 ->
    find_circle_intersections
      [x2 self; y2 self] (arm self) [target_x; target_y] (forearm self) = Some i2 ->
    select_intersection_point (PyArray i1) = Some s1 ->
    select_intersection_point (PyArray i2) = Some s2 ->
    calculate_angle (PyArray (array1 [x1 self; y1 self])) (PyArray s1) = None
    \/ calculate_angle (PyArray (array1 [x2 self; y2 self])) (PyArray s2) = None ->
    Rejected target_x target_y
| reject_outside_bands (angle1 angle2 : R) :
    joint_angles target_x target_y = Some (angle1, angle2) ->
    angle1 < 45 \/ 315 < angle1 \/ 135 < angle2 < 225 ->
    Rejected target_x target_y.

(** A run of successful moves: [flat_move] is called on each waypoint in
    turn, each call on the state its predecessor left, and each returns the
    move data. *)
Inductive Visits : list (R * R) -> State -> State -> Prop :=
| visits_nil (st : State) : Visits [] st st
| visits_cons (w : R * R) (rest : list (R * R)) (d : MoveData)
    (st st1 st2 : State) :
    flat_move self (fst w) (snd w) st = (Return (Some d), st1) ->
    Visits rest st1 st2 ->
    Visits (w :: rest) st st2.

(** The commands a state has received beyond those of an earlier state. *)
Definition servo_commands_since (before after : State) : list pwm_command :=
  skipn (length (pwm before)) (pwm after).

(** The waypoints of [interpolated_flat_move]: the [zip] of the two
    [linspace] results, from the TCP position of the state. *)
Definition waypoints (st : State) (target_x target_y : R) (steps : Z)
  : outcome (list (R * R)) :=
  match linspace (x st) target_x steps with
  | Raise e => Raise e
  | Return x_values =>
      match linspace (y st) target_y steps with
      | Raise e => Raise e
      | Return y_values => Return (combine x_values y_values)
      end
  end.

End Stages.

(** The [i]-th of [steps] evenly spaced points from the TCP position of
    [st] to the target, both ends included. *)
Definition spaced (st : State) (target_x target_y : R) (steps : Z) (i : nat)
  : R * R :=
  (x st + INR i * ((target_x - x st) / IZR (steps - 1)),
   y st + INR i * ((target_y - y st) / IZR (steps - 1))).

(** [SCARAController(x=0.0, y=0.0)]: the default controller, started at a
    position that it accepts. *)
Definition origin_controller : Config * State :=
  SCARAController 0 1 2 0 0 160 180 260 270 2590 570 68 214.

(** [SCARAController(x=0.0, y=0.0, motor2_angle_offset=0.0)]. *)
Definition detuned_origin_controller : Config * State :=
  SCARAController 0 1 2 0 0 160 180 260 270 2590 570 68 0.

(* ===================================================================== *)
(** * scara.py: the vertical axis *)
(* ===================================================================== *)


Section Vertical.

Variable self : Config.



End Vertical.

(* ===================================================================== *)
(** * cli.py *)
(* ===================================================================== *)

(** The lines a command prints with [typer.echo].  The numbers that the
    format strings render ([{x:.2f}], [{pulse}], [{time}]) are kept as
    numbers. *)
Inductive message : Type :=
| msg_position (x y : R)          (* "Current position: X=..., Y=..." *)
| msg_moved (x y : R)             (* "Moved to (x, y) successfully." *)
| msg_move_failed (x y : R)       (* "Failed to move to (x, y)." *)
| msg_interpolated (x y : R)      (* "Interpolated move to (x, y) completed." *)
| msg_interpolation_failed (x y : R)
                                  (* "Interpolation failed before reaching (x, y)." *)
| msg_lifted (pulse : Z) (time : R)   (* "Robot lifted (pulse=..., time=...s)." *)
| msg_lift_failed                 (* "Lift failed." *)
| msg_lowered (pulse : Z) (time : R)  (* "Robot lowered (pulse=..., time=...s)." *)
| msg_lowering_failed             (* "Lowering failed." *)
| msg_done.                       (* "Done" *)

(** How a command ends: it returns (exit code 0), calls [sys.exit(code)], or
    lets an exception escape. *)
Inductive ending : Type :=
| Exit (code : Z)
| Uncaught (e : exn).

(** A run of a command: how it ended, what it printed, and the state of the
    controller it created. *)
Definition run : Type := ending * list message * State.

(** [status()]. *)
Definition cli_status : run :=
  let (self, st) := default_controller in
  (Exit 0, [msg_position (x st) (y st)], st).


(** [interpolate(x, y, steps, delay)]. *)
Definition cli_interpolate (x y : R) (steps : Z) (delay : R) : run :=
  let (self, st) := default_controller in
  match interpolated_flat_move self x y steps delay st with
  | (Return true, st') => (Exit 0, [msg_interpolated x y], st')
  | (Return false, st') => (Exit 1, [msg_interpolation_failed x y], st')
  | (Raise e, st') => (Uncaught e, [], st')
  end.




(* ===================================================================== *)
(** * Facts about the numeric primitives *)
(* ===================================================================== *)

Lemma Rltb_true (a b : R) : a < b -> Rltb a b = true.
Proof. intros H. unfold Rltb. destruct (Rlt_dec a b); [reflexivity | contradiction]. Qed.

Lemma Rltb_false (a b : R) : b <= a -> Rltb a b = false.
Proof. intros H. unfold Rltb. destruct (Rlt_dec a b); [lra | reflexivity]. Qed.

Lemma Rleb_true (a b : R) : a <= b -> Rleb a b = true.
Proof. intros H. unfold Rleb. destruct (Rle_dec a b); [reflexivity | contradiction]. Qed.

Lemma Rleb_false (a b : R) : b < a -> Rleb a b = false.
Proof. intros H. unfold Rleb. destruct (Rle_dec a b); [lra | reflexivity]. Qed.

Lemma Rltb_iff (a b : R) : Rltb a b = true <-> a < b.
Proof. unfold Rltb. destruct (Rlt_dec a b); split; intros; auto; discriminate. Qed.

Lemma Rleb_iff (a b : R) : Rleb a b = true <-> a <= b.
Proof. unfold Rleb. destruct (Rle_dec a b); split; intros; auto; discriminate. Qed.

Lemma Rltb_iff_false (a b : R) : Rltb a b = false <-> b <= a.
Proof. unfold Rltb. destruct (Rlt_dec a b); split; intros; auto; try discriminate; lra. Qed.

Lemma Rleb_iff_false (a b : R) : Rleb a b = false <-> b < a.
Proof. unfold Rleb. destruct (Rle_dec a b); split; intros; auto; try discriminate; lra. Qed.

Lemma Reqb_true (a b : R) : a = b -> Reqb a b = true.
Proof. intros H. unfold Reqb. destruct (Req_dec_T a b); [reflexivity | contradiction]. Qed.

Lemma Reqb_false (a b : R) : a <> b -> Reqb a b = false.
Proof. intros H. unfold Reqb. destruct (Req_dec_T a b); [contradiction | reflexivity]. Qed.

(** Case analysis on every comparison of the goal. *)
Ltac cmp_cases :=
  unfold Rgtb, Rgeb, Rltb, Rleb, Reqb in *;
  repeat match goal with
         | |- context [Rlt_dec ?a ?b] => destruct (Rlt_dec a b)
         | |- context [Rle_dec ?a ?b] => destruct (Rle_dec a b)
         | |- context [Req_dec_T ?a ?b] => destruct (Req_dec_T a b)
         | H : context [Rlt_dec ?a ?b] |- _ => destruct (Rlt_dec a b)
         | H : context [Rle_dec ?a ?b] |- _ => destruct (Rle_dec a b)
         | H : context [Req_dec_T ?a ?b] |- _ => destruct (Req_dec_T a b)
         end;
  simpl in *.

Lemma floor_bounds (a : R) : IZR (floor a) <= a < IZR (floor a) + 1.
Proof. unfold floor. destruct (base_Int_part a). lra. Qed.

Lemma floor_unique (a : R) (z : Z) : IZR z <= a < IZR z + 1 -> floor a = z.
Proof.
  intros H. unfold floor. symmetry. apply Int_part_spec. lra.
Qed.

Lemma floor_IZR (z : Z) : floor (IZR z) = z.
Proof. apply floor_unique. lra. Qed.

Lemma floor_le (a b : R) : a <= b -> (floor a <= floor b)%Z.
Proof.
  intros H. pose proof (floor_bounds a) as Ha. pose proof (floor_bounds b) as Hb.
  apply Z.lt_succ_r. apply lt_IZR. rewrite succ_IZR. lra.
Qed.

Lemma py_mod_range (a m : R) : 0 < m -> 0 <= py_mod a m < m.
Proof.
  intros Hm. unfold py_mod.
  pose proof (floor_bounds (a / m)) as [Hlo Hhi].
  assert (Ha : a = a / m * m) by (field; lra).
  split; nra.
Qed.

Lemma py_mod_small (a m : R) : 0 <= a < m -> py_mod a m = a.
Proof.
  intros [Hlo Hhi]. unfold py_mod.
  assert (Hm : 0 < m) by lra.
  assert (Hf : floor (a / m) = 0%Z).
  { apply floor_unique. simpl. split.
    - apply Rmult_le_pos; [lra |]. left. now apply Rinv_0_lt_compat.
    - apply Rmult_lt_reg_r with m; [lra |]. field_simplify; lra. }
  rewrite Hf. simpl. lra.
Qed.

Lemma py_round_IZR (z : Z) : py_round (IZR z) = z.
Proof.
  unfold py_round. rewrite floor_IZR.
  rewrite Rltb_true by lra. reflexivity.
Qed.

Lemma py_round_bounds (a : R) : (floor a <= py_round a <= floor a + 1)%Z.
Proof.
  unfold py_round.
  destruct (Rltb _ _); [lia |].
  destruct (Rltb _ _); [lia |].
  destruct (Z.even _); lia.
Qed.

Lemma py_round_le (a b : R) : a <= b -> (py_round a <= py_round b)%Z.
Proof.
  intros Hab.
  pose proof (floor_le a b Hab) as Hf.
  destruct (Z.eq_dec (floor a) (floor b)) as [E | NE].
  - unfold py_round. rewrite E.
    assert (Hr : a - IZR (floor b) <= b - IZR (floor b)) by lra.
    cmp_cases; try lia; try lra; destruct (Z.even (floor b)); lia.
  - pose proof (py_round_bounds a). pose proof (py_round_bounds b). lia.
Qed.

Lemma arctan2_range (dy dx : R) : - PI < arctan2 dy dx <= PI.
Proof.
  pose proof PI_RGT_0 as Hpi.
  pose proof (atan_bound (dy / dx)) as Hb.
  unfold arctan2. cmp_cases; try lra.
  - (* dx < 0, 0 <= dy *)
    assert (Hq : dy / dx <= 0).
    { unfold Rdiv. assert (/ dx < 0) by now apply Rinv_lt_0_compat. nra. }
    destruct Hq as [Hq | Hq].
    + pose proof (atan_increasing _ _ Hq) as Hi. rewrite atan_0 in Hi. lra.
    + rewrite Hq, atan_0. lra.
  - (* dx < 0, dy < 0 *)
    assert (Hq : 0 < dy / dx).
    { unfold Rdiv. assert (/ dx < 0) by now apply Rinv_lt_0_compat. nra. }
    pose proof (atan_increasing _ _ Hq) as Hi. rewrite atan_0 in Hi. lra.
Qed.

Lemma degrees_range (a : R) : - PI < a <= PI -> -180 < degrees a <= 180.
Proof.
  intros [Hlo Hhi]. pose proof PI_RGT_0 as Hpi. unfold degrees.
  split.
  - apply Rmult_lt_reg_r with PI; [lra |]. field_simplify; lra.
  - apply Rmult_le_reg_r with PI; [lra |]. field_simplify; lra.
Qed.

Lemma degrees_0 : degrees 0 = 0.
Proof. unfold degrees. pose proof PI_RGT_0. field. lra. Qed.

Lemma degrees_PI : degrees PI = 180.
Proof. unfold degrees. pose proof PI_RGT_0. field. lra. Qed.

Lemma degrees_PI2 : degrees (PI / 2) = 90.
Proof. unfold degrees. pose proof PI_RGT_0. field. lra. Qed.

Lemma degrees_opp_PI2 : degrees (- (PI / 2)) = -90.
Proof. unfold degrees. pose proof PI_RGT_0. field. lra. Qed.



(** [py_round] returns a nearest integer, and [py_mod] differs from its
    argument by a multiple of the modulus. *)
Lemma py_round_nearest (a : R) : Rabs (IZR (py_round a) - a) <= 1 / 2.
Proof.
  pose proof (floor_bounds a) as [Hlo Hhi].
  unfold py_round. cmp_cases.
  - unfold Rabs. destruct (Rcase_abs _); lra.
  - rewrite plus_IZR. unfold Rabs. destruct (Rcase_abs _); lra.
  - destruct (Z.even (floor a)); [| rewrite plus_IZR];
      unfold Rabs; destruct (Rcase_abs _); lra.
Qed.

Lemma py_mod_congruent (a m : R) : exists k : Z, a = py_mod a m + m * IZR k.
Proof. exists (floor (a / m)). unfold py_mod. ring. Qed.

(* ===================================================================== *)
(** * Angle calculator *)
(* ===================================================================== *)

Lemma calculate_angle_eq (px py qx qy : R) :
  calculate_angle (PyArray (array1 [px; py])) (PyArray (array1 [qx; qy]))
  = Some (let angle := degrees (arctan2 (qy - py) (qx - px)) in
          if Rltb angle 0 then angle + 360 else angle).
Proof. reflexivity. Qed.

Lemma bearing_range (a : R) :
  -180 < a <= 180 -> 0 <= (if Rltb a 0 then a + 360 else a) < 360.
Proof. intros H. cmp_cases; lra. Qed.

Lemma arctan2_east : arctan2 0 1 = 0.
Proof.
  unfold arctan2. rewrite Rltb_true by lra.
  replace (0 / 1) with 0 by field. apply atan_0.
Qed.

Lemma arctan2_north : arctan2 1 0 = PI / 2.
Proof.
  unfold arctan2. rewrite (Rltb_false 0 0) by lra.
  rewrite Rltb_true by lra. reflexivity.
Qed.

Lemma arctan2_west : arctan2 0 (-1) = PI.
Proof.
  unfold arctan2. rewrite Rltb_false by lra. rewrite Rltb_true by lra.
  rewrite Rleb_true by lra.
  replace (0 / -1) with 0 by field. rewrite atan_0. lra.
Qed.

Lemma arctan2_south : arctan2 (-1) 0 = - (PI / 2).
Proof.
  unfold arctan2. rewrite (Rltb_false 0 0) by lra.
  rewrite (Rltb_false 0 (-1)) by lra. rewrite Rltb_true by lra. reflexivity.
Qed.

(** Over the reals: for two points given as arrays of shape (2,),
    [calculate_angle] returns the arctangent of (dy, dx) in degrees, plus
    360 when that is negative; in exact arithmetic the sum is below 360;
    and from (0,0) the bearings to (1,0), (0,1), (-1,0) and (0,-1) are 0,
    90, 180 and 270 degrees. *)
Lemma calculate_angle_over_reals :
  (forall px py qx qy : R,
     exists angle : R,
       calculate_angle (PyArray (array1 [px; py])) (PyArray (array1 [qx; qy]))
       = Some angle
       /\ angle = (let d := degrees (arctan2 (qy - py) (qx - px)) in
                   if Rltb d 0 then d + 360 else d)
       /\ 0 <= angle < 360)
  /\ calculate_angle (PyArray (array1 [0; 0])) (PyArray (array1 [1; 0])) = Some 0
  /\ calculate_angle (PyArray (array1 [0; 0])) (PyArray (array1 [0; 1])) = Some 90
  /\ calculate_angle (PyArray (array1 [0; 0])) (PyArray (array1 [-1; 0])) = Some 180
  /\ calculate_angle (PyArray (array1 [0; 0])) (PyArray (array1 [0; -1])) = Some 270.
Proof.
  split; [| repeat split].
  - intros px py qx qy. eexists. split; [apply calculate_angle_eq |].
    split; [reflexivity |].
    apply bearing_range, degrees_range, arctan2_range.
  - rewrite calculate_angle_eq. cbv zeta.
    replace (0 - 0) with 0 by ring. replace (1 - 0) with 1 by ring.
    rewrite arctan2_east, degrees_0. rewrite Rltb_false by lra. reflexivity.
  - rewrite calculate_angle_eq. cbv zeta.
    replace (0 - 0) with 0 by ring. replace (1 - 0) with 1 by ring.
    rewrite arctan2_north, degrees_PI2. rewrite Rltb_false by lra. reflexivity.
  - rewrite calculate_angle_eq. cbv zeta.
    replace (0 - 0) with 0 by ring. replace (-1 - 0) with (-1) by ring.
    rewrite arctan2_west, degrees_PI. rewrite Rltb_false by lra. reflexivity.
  - rewrite calculate_angle_eq. cbv zeta.
    replace (0 - 0) with 0 by ring. replace (-1 - 0) with (-1) by ring.
    rewrite arctan2_south, degrees_opp_PI2. rewrite Rltb_true by lra.
    f_equal. lra.
Qed.

(** On binary64 numbers the four bearings are the same, whenever
    [np.arctan2] returns the binary64 numbers nearest to 0, pi/2, pi and
    -pi/2 for them. *)
Lemma calculate_angle_cardinal_binary64 (arctan2 : float -> float -> float) :
  arctan2 0%float 1%float = 0%float ->
  arctan2 1%float 0%float = 0x1.921fb54442d18p+0%float ->
  arctan2 0%float (-1)%float = 0x1.921fb54442d18p+1%float ->
  arctan2 (-1)%float 0%float = (-0x1.921fb54442d18p+0)%float ->
  F64.calculate_angle arctan2 (F64.PyArray (F64.array1 [0; 0]%float))
                      (F64.PyArray (F64.array1 [1; 0]%float)) = Some 0%float
  /\ F64.calculate_angle arctan2 (F64.PyArray (F64.array1 [0; 0]%float))
                         (F64.PyArray (F64.array1 [0; 1]%float)) = Some 90%float
  /\ F64.calculate_angle arctan2 (F64.PyArray (F64.array1 [0; 0]%float))
                         (F64.PyArray (F64.array1 [-1; 0]%float)) = Some 180%float
  /\ F64.calculate_angle arctan2 (F64.PyArray (F64.array1 [0; 0]%float))
                         (F64.PyArray (F64.array1 [0; -1]%float)) = Some 270%float.
Proof.
  intros He Hn Hw Hs.
  repeat split; vm_compute;
    [rewrite He | rewrite Hn | rewrite Hw | rewrite Hs]; reflexivity.
Qed.

(** C7, at the points (0, 0) and (1, -1e-20).  The bearing is negative and
    tiny: [np.arctan2(-1e-20, 1.0)] is -1e-20, which [np.degrees] turns
    into about -5.7e-19.  Line 133 adds 360.0 to it, and the binary64 sum
    is 360.0 itself: [calculate_angle] returns 360.0, which is not below
    360. *)
Theorem calculate_angle_reaches_360 (arctan2 : float -> float -> float) :
  arctan2 (-1e-20)%float 1%float = (-1e-20)%float ->
  F64.calculate_angle arctan2 (F64.PyArray (F64.array1 [0; 0]%float))
                      (F64.PyArray (F64.array1 [1; -1e-20]%float))
  = Some 360%float
  /\ (360 <? 360)%float = false.
Proof.
  intros Hatan. split; [| reflexivity].
  vm_compute. rewrite Hatan. reflexivity.
Qed.

(** For so flat a direction the quotient dy / dx is the arctangent to
    binary64 precision. *)
Lemma calculate_angle_reaches_360_witness :
  F64.calculate_angle (fun dy dx => dy / dx)%float
                      (F64.PyArray (F64.array1 [0; 0]%float))
                      (F64.PyArray (F64.array1 [1; -1e-20]%float))
  = Some 360%float
  /\ (360 <? 360)%float = false.
Proof.
  apply (calculate_angle_reaches_360 (fun dy dx => dy / dx)%float).
  reflexivity.
Defined.

(* ===================================================================== *)
(** * Intersection disambiguator *)
(* ===================================================================== *)

Lemma shape_eqb_refl (s : list nat) : shape_eqb s s = true.
Proof. unfold shape_eqb. destruct (list_eq_dec Nat.eq_dec s s); congruence. Qed.

Lemma shape_eqb_neq (s t : list nat) : s <> t -> shape_eqb s t = false.
Proof. intros H. unfold shape_eqb. destruct (list_eq_dec Nat.eq_dec s t); congruence. Qed.

Lemma argmin_pair (a b : R) : argmin [a; b] = if Rltb b a then 1%nat else 0%nat.
Proof. simpl. destruct (Rltb b a); reflexivity. Qed.

Lemma select_stack2 (ax ay bx by_ : R) :
  select_intersection_point (PyArray (stack2 [ax; ay] [bx; by_]))
  = Some (array1 (if Rltb bx ax then [bx; by_] else [ax; ay])).
Proof.
  unfold select_intersection_point. simpl shape.
  rewrite shape_eqb_refl. simpl negb. cbv iota.
  change (column0 (stack2 [ax; ay] [bx; by_])) with [ax; bx].
  rewrite argmin_pair. destruct (Rltb bx ax); reflexivity.
Qed.

(** An array of shape (2, 2) is the stack of its two rows. *)
Lemma shape_2_2_inv (a : ndarray) :
  wf_ndarray a -> shape a = [2%nat; 2%nat] ->
  exists ax ay bx by_, a = stack2 [ax; ay] [bx; by_].
Proof.
  destruct a as [s d]. unfold wf_ndarray. simpl. intros Hwf Hs. subst s.
  simpl in Hwf.
  destruct d as [| ax [| ay [| bx [| by_ [| ? ?]]]]]; try discriminate.
  now exists ax, ay, bx, by_.
Qed.

(** C6.  Given the pair of points A = (ax, ay) and B = (bx, by), in that
    order, [select_intersection_point] returns A when ax <= bx (so also on a
    tie) and B when bx < ax; it returns [None] for [None], for an object
    that is not an array and for an array whose shape is not (2, 2).  It has
    no path that raises: its result is always a value or [None]. *)
Theorem select_intersection_point_smaller_x :
  (forall ax ay bx by_ : R,
     (ax <= bx ->
      select_intersection_point (PyArray (stack2 [ax; ay] [bx; by_]))
      = Some (array1 [ax; ay]))
     /\ (bx < ax ->
         select_intersection_point (PyArray (stack2 [ax; ay] [bx; by_]))
         = Some (array1 [bx; by_])))
  /\ select_intersection_point PyNone = None
  /\ select_intersection_point PyOther = None
  /\ (forall a : ndarray,
        shape a <> [2%nat; 2%nat] ->
        select_intersection_point (PyArray a) = None).
Proof.
  split; [| split; [| split]].
  - intros ax ay bx by_. rewrite select_stack2. split; intros H.
    + rewrite Rltb_false by lra. reflexivity.
    + rewrite Rltb_true by lra. reflexivity.
  - reflexivity.
  - reflexivity.
  - intros a Ha. unfold select_intersection_point.
    rewrite shape_eqb_neq by assumption. reflexivity.
Qed.

Lemma select_intersection_point_smaller_x_witness :
  select_intersection_point (PyArray (stack2 [4; 1] [4; -5])) = Some (array1 [4; 1])
  /\ select_intersection_point (PyArray (stack2 [5; 2] [3; -1])) = Some (array1 [3; -1])
  /\ select_intersection_point (PyArray (mk_ndarray [1%nat; 3%nat] [1; 2; 3])) = None.
Proof.
  split; [| split].
  - apply (proj1 (proj1 select_intersection_point_smaller_x 4 1 4 (-5))). lra.
  - apply (proj2 (proj1 select_intersection_point_smaller_x 5 2 3 (-1))). lra.
  - apply (proj2 (proj2 (proj2 select_intersection_point_smaller_x))).
    simpl. discriminate.
Defined.

(* ===================================================================== *)
(** * Circle intersection solver *)
(* ===================================================================== *)

Lemma eps_pos : 0 < eps.
Proof. unfold eps. lra. Qed.

Lemma norm_pair (a b : R) : norm [a; b] = sqrt (a * a + b * b).
Proof. unfold norm. simpl. f_equal. ring. Qed.

Lemma norm_nonneg (v : list R) : 0 <= norm v.
Proof. unfold norm. apply sqrt_pos. Qed.

Lemma norm_axis (a : R) : 0 <= a -> norm [a; 0] = a.
Proof.
  intros Ha. rewrite norm_pair.
  replace (a * a + 0 * 0) with (a * a) by ring. now apply sqrt_square.
Qed.

Section Circles.

Variables p1x p1y r1 p2x p2y r2 : R.

Let d : R := norm [p2x - p1x; p2y - p1y].
Let a : R := (r1 ^ 2 - r2 ^ 2 + d ^ 2) / (2 * d).

(** Outside the band, or with centres closer than [eps]: no solution. *)
Lemma find_circle_intersections_none :
  r1 + r2 < d \/ d < Rabs (r1 - r2) \/ d < eps ->
  find_circle_intersections [p1x; p1y] r1 [p2x; p2y] r2 = None.
Proof.
  intros H. unfold find_circle_intersections. fold d.
  destruct H as [H | [H | H]].
  - unfold Rgtb. rewrite (Rltb_true _ _ H). reflexivity.
  - rewrite (Rltb_true _ _ H). now rewrite orb_true_r.
  - rewrite (Rltb_true _ _ H). now rewrite orb_true_r.
Qed.

(** In exact arithmetic the squared half-chord is not negative inside the
    band, so the near-tangent guard does not fire there. *)
Lemma h_sq_nonneg :
  Rabs (r1 - r2) <= d <= r1 + r2 -> 0 < d -> 0 <= r1 ^ 2 - a ^ 2.
Proof.
  intros [Hlo Hhi] Hd.
  assert (Hr : r1 - r2 <= d /\ r2 - r1 <= d).
  { unfold Rabs in Hlo. destruct (Rcase_abs (r1 - r2)); lra. }
  destruct Hr as [Hr1 Hr2].
  assert (Hf1 : 0 <= r2 ^ 2 - (d - r1) ^ 2) by nra.
  assert (Hf2 : 0 <= (d + r1) ^ 2 - r2 ^ 2) by nra.
  assert (Hprod : r1 ^ 2 - a ^ 2
                  = (r2 ^ 2 - (d - r1) ^ 2) * ((d + r1) ^ 2 - r2 ^ 2)
                    / (4 * d ^ 2)).
  { unfold a. field. lra. }
  rewrite Hprod. apply Rmult_le_pos.
  - now apply Rmult_le_pos.
  - left. apply Rinv_0_lt_compat. nra.
Qed.

(** Inside the band, with centres at least [eps] apart: the two points. *)
Lemma find_circle_intersections_some :
  Rabs (r1 - r2) <= d <= r1 + r2 -> eps <= d ->
  find_circle_intersections [p1x; p1y] r1 [p2x; p2y] r2
  = let h := sqrt (r1 ^ 2 - a ^ 2) in
    let p3x := p1x + a * (p2x - p1x) / d in
    let p3y := p1y + a * (p2y - p1y) / d in
    let offx := h * (- (p2y - p1y)) / d in
    let offy := h * (p2x - p1x) / d in
    Some (stack2 [p3x + offx; p3y + offy] [p3x - offx; p3y - offy]).
Proof.
  intros Hband Heps. pose proof eps_pos as He.
  assert (Hd : 0 < d) by lra.
  pose proof (h_sq_nonneg Hband Hd) as Hh.
  unfold find_circle_intersections. fold d. fold a.
  unfold Rgtb at 1.
  rewrite (Rltb_false (r1 + r2) d) by lra.
  rewrite (Rltb_false d (Rabs (r1 - r2))) by lra.
  rewrite (Rltb_false d eps) by lra.
  simpl orb. cbv iota.
  rewrite (Rltb_false (r1 ^ 2 - a ^ 2) 0) by lra.
  reflexivity.
Qed.


(** In exact arithmetic a negative radius puts every distance outside the
    band. *)
Lemma negative_radius_outside_band :
  r1 < 0 \/ r2 < 0 -> r1 + r2 < d \/ d < Rabs (r1 - r2).
Proof.
  intros Hneg.
  destruct (Rlt_dec (r1 + r2) d) as [H | H]; [now left | right].
  assert (Hlt : r1 + r2 < Rabs (r1 - r2)).
  { unfold Rabs. destruct (Rcase_abs (r1 - r2)); lra. }
  lra.
Qed.

End Circles.


(** Equality of vectors, component by component. *)
Ltac vec_eq :=
  repeat match goal with
         | |- cons _ _ = cons _ _ => apply (f_equal2 cons)
         | |- nil = nil => reflexivity
         end.






(** The sign of a radius is not tested: with [x ** 2] and the norm rounded
    to nearest, the radii -1e-30 and 1 with centres at distance 1 pass the
    three tests of line 44, because r1 + r2 and |r1 - r2| both round to 1,
    and an array of two points is returned. *)
Lemma negative_radius_absorbed :
  (-1e-30 <? 0)%float = true
  /\ (-1e-30 + 1 =? 1)%float = true
  /\ (abs (-1e-30 - 1) =? 1)%float = true
  /\ exists pair : F64.ndarray,
       F64.find_circle_intersections F64.norm_rn F64.square_rn
         [0; 0]%float (-1e-30)%float [1; 0]%float 1%float
       = Some pair.
Proof.
  repeat split; try reflexivity.
  eexists. vm_compute. reflexivity.
Qed.

(** The two unit circles with centres 5e-10 apart, on binary64 numbers. *)
Lemma near_coincident_binary64 :
  F64.find_circle_intersections F64.norm_rn F64.square_rn
    [0; 0]%float 1%float [5e-10; 0]%float 1%float
  = None.
Proof. vm_compute. reflexivity. Qed.


(** C5 (amended).  Centres (0,0) and (10,0) with radii 5 and 5, where
    d = r1 + r2 exactly: the result is the pair ((5,0), (5,0)), two identical
    points, and not [None].  This holds on binary64 numbers, for every
    [np.linalg.norm] and [x ** 2] that return the exactly representable
    values norm((10, 0)) = 10, 5 ** 2 = 25 and 10 ** 2 = 100, and it holds
    in exact arithmetic. *)
Theorem tangent_external_5_5_10
    (norm : list float -> float) (square : float -> float) :
  norm [10; 0]%float = 10%float ->
  square 5%float = 25%float ->
  square 10%float = 100%float ->
  F64.find_circle_intersections norm square [0; 0]%float 5%float
                                [10; 0]%float 5%float
  = Some (F64.stack2 [5; 0]%float [5; 0]%float)
  /\ find_circle_intersections [0; 0] 5 [10; 0] 5
     = Some (stack2 [5; 0] [5; 0]).
Proof.
  intros Hnorm H5 H10. split.
  - unfold F64.find_circle_intersections.
    change (10 - 0)%float with 10%float. change (0 - 0)%float with 0%float.
    rewrite Hnorm, H5, H10.
    change ((25 - 25 + 100) / (2 * 10))%float with 5%float.
    rewrite H5. vm_compute. reflexivity.
  - assert (Hd : PyNum.norm [10 - 0; 0 - 0] = 5 + 5).
    { replace (10 - 0) with 10 by ring. replace (0 - 0) with 0 by ring.
      rewrite norm_axis; lra. }
    rewrite find_circle_intersections_some.
    + cbv zeta. rewrite Hd.
      replace ((5 ^ 2 - 5 ^ 2 + (5 + 5) ^ 2) / (2 * (5 + 5))) with 5
        by field.
      replace (5 ^ 2 - 5 ^ 2) with 0 by ring. rewrite sqrt_0.
      unfold stack2. do 2 f_equal. simpl. vec_eq; field.
    + rewrite Hd. replace (5 - 5) with 0 by ring. rewrite Rabs_R0. lra.
    + rewrite Hd. unfold eps. lra.
Qed.

Lemma tangent_external_5_5_10_witness :
  F64.find_circle_intersections F64.norm_rn F64.square_rn
    [0; 0]%float 5%float [10; 0]%float 5%float
  = Some (F64.stack2 [5; 0]%float [5; 0]%float)
  /\ find_circle_intersections [0; 0] 5 [10; 0] 5
     = Some (stack2 [5; 0] [5; 0]).
Proof.
  apply (tangent_external_5_5_10 F64.norm_rn F64.square_rn);
    vm_compute; reflexivity.
Defined.

(** C5 as written fails: two circles of radius 1e-10 with centres 2e-10
    apart are externally tangent, d = r1 + r2 exactly, and the result is
    [None], because d is below 1e-9 (line 44).  So it is on binary64
    numbers, and so it is in exact arithmetic. *)
Lemma tangent_below_eps_none :
  ((1e-10 + 1e-10 =? F64.norm_rn [2e-10 - 0; 0 - 0])%float = true
   /\ F64.find_circle_intersections F64.norm_rn F64.square_rn
        [0; 0]%float 1e-10%float [2e-10; 0]%float 1e-10%float
      = None)
  /\ (norm [2 / 10000000000 - 0; 0 - 0]
      = 1 / 10000000000 + 1 / 10000000000
      /\ find_circle_intersections [0; 0] (1 / 10000000000)
                                   [2 / 10000000000; 0] (1 / 10000000000)
         = None).
Proof.
  assert (Hd : norm [2 / 10000000000 - 0; 0 - 0] = 2 / 10000000000).
  { replace (2 / 10000000000 - 0) with (2 / 10000000000) by ring.
    replace (0 - 0) with 0 by ring. apply norm_axis. lra. }
  split; [split; vm_compute; reflexivity |].
  split.
  - rewrite Hd. lra.
  - apply find_circle_intersections_none. rewrite Hd. unfold eps. lra.
Qed.

(** An exactly tangent pair at a magnitude where the squares are not
    binary64 numbers: radii 100000001 and 2, centres 100000003 apart.  The
    square of 100000003 lies halfway between two binary64 numbers.  With
    [x ** 2] rounded to the even one the result is two points about 2.83
    apart; with an [x ** 2] that returns the other neighbour for it, the
    computed h_sq is -4 and the result is [None]. *)
Lemma tangent_at_rounding_edge :
  (100000001 + 2 =? F64.norm_rn [100000003 - 0; 0 - 0])%float = true
  /\ F64.find_circle_intersections F64.norm_rn F64.square_rn
       [0; 0]%float 100000001%float [100000003; 0]%float 2%float
     = Some (F64.stack2
               [100000000.99999999; 1.4142135623730949]%float
               [100000000.99999999; -1.4142135623730949]%float)
  /\ F64.find_circle_intersections F64.norm_rn
       (fun v => if v =? 100000003 then 10000000600000010 else v * v)%float
       [0; 0]%float 100000001%float [100000003; 0]%float 2%float
     = None.
Proof. repeat split; vm_compute; reflexivity. Qed.

(* ===================================================================== *)
(** * Angle-to-pulse mapper *)
(* ===================================================================== *)

Section Mapper.

Variable self : Config.

Lemma motor_offset_cases (motor : string) :
  (motor = "motor1"%string
   /\ motor_offset self motor = Return (motor1_angle_offset self))
  \/ (motor = "motor2"%string
      /\ motor_offset self motor = Return (motor2_angle_offset self))
  \/ (motor <> "motor1"%string /\ motor <> "motor2"%string
      /\ motor_offset self motor = Raise ValueError).
Proof.
  unfold motor_offset.
  destruct (String.eqb_spec motor "motor1") as [E1 | N1]; [now left |].
  destruct (String.eqb_spec motor "motor2") as [E2 | N2]; [right; now left |].
  right; right. auto.
Qed.

Lemma adjusted_range (angle angle_offset : R) :
  0 <= adjusted angle angle_offset < 360.
Proof. unfold adjusted. apply py_mod_range. lra. Qed.

(** The pulse of line 64, for an adjusted angle. *)
Let pulse_at (adjusted_angle : R) : Z :=
  py_round (adjusted_angle / max_angle self
            * IZR (max_pulse self - min_pulse self)
            + IZR (min_pulse self)).

Lemma angle_to_pulse_in_range (angle : R) (motor : string) (off : R) :
  motor_offset self motor = Return off ->
  max_angle self <> 0 ->
  0 <= adjusted angle off <= max_angle self ->
  angle_to_pulse self angle motor = Return (pulse_at (adjusted angle off)).
Proof.
  intros Hoff Hmax [Hlo Hhi]. unfold angle_to_pulse. rewrite Hoff.
  fold (adjusted angle off).
  rewrite (Rleb_true _ _ Hlo), (Rleb_true _ _ Hhi). simpl.
  unfold py_div. rewrite (Reqb_false _ _ Hmax). reflexivity.
Qed.

Lemma angle_to_pulse_out_of_range (angle : R) (motor : string) (off : R) :
  motor_offset self motor = Return off ->
  ~ (0 <= adjusted angle off <= max_angle self) ->
  angle_to_pulse self angle motor = Raise ValueError.
Proof.
  intros Hoff Hout. unfold angle_to_pulse. rewrite Hoff.
  fold (adjusted angle off).
  destruct (Rle_dec 0 (adjusted angle off)) as [Hlo | Hlo].
  - rewrite (Rleb_true _ _ Hlo). rewrite Rleb_false by lra. reflexivity.
  - rewrite Rleb_false by lra. reflexivity.
Qed.

Lemma angle_to_pulse_unknown_motor (angle : R) (motor : string) :
  motor <> "motor1"%string -> motor <> "motor2"%string ->
  angle_to_pulse self angle motor = Raise ValueError.
Proof.
  intros N1 N2. unfold angle_to_pulse.
  destruct (motor_offset_cases motor) as [[E _] | [[E _] | (_ & _ & Hr)]];
    try contradiction.
  now rewrite Hr.
Qed.

Lemma pulse_at_monotone (u v : R) :
  0 < max_angle self -> u <= v ->
  ((min_pulse self <= max_pulse self)%Z -> (pulse_at u <= pulse_at v)%Z)
  /\ ((min_pulse self >= max_pulse self)%Z -> (pulse_at v <= pulse_at u)%Z).
Proof.
  intros Hmax Huv.
  assert (Hq : u / max_angle self <= v / max_angle self).
  { unfold Rdiv. apply Rmult_le_compat_r; [| exact Huv].
    left. now apply Rinv_0_lt_compat. }
  split; intros Hord; unfold pulse_at; apply py_round_le;
    rewrite minus_IZR.
  - apply IZR_le in Hord. nra.
  - apply Z.ge_le, IZR_le in Hord. nra.
Qed.

Lemma pulse_at_0 : pulse_at 0 = min_pulse self.
Proof.
  unfold pulse_at.
  replace (0 / max_angle self
           * IZR (max_pulse self - min_pulse self)
           + IZR (min_pulse self))
    with (IZR (min_pulse self)) by (unfold Rdiv; ring).
  apply py_round_IZR.
Qed.

Lemma pulse_at_max : max_angle self <> 0 -> pulse_at (max_angle self) = max_pulse self.
Proof.
  intros Hmax. unfold pulse_at.
  replace (max_angle self / max_angle self
           * IZR (max_pulse self - min_pulse self)
           + IZR (min_pulse self))
    with (IZR (max_pulse self)) by (rewrite minus_IZR; field; exact Hmax).
  apply py_round_IZR.
Qed.

(** C8 (amended).  For a recognised motor with offset [off] and a positive
    [max_angle]: two angles whose adjusted angles u <= v lie in
    [0, max_angle] both map to a pulse, in the same order when
    min_pulse <= max_pulse and in the opposite order when
    min_pulse >= max_pulse (an inverted range is mapped, not refused); an
    adjusted angle of 0 maps to min_pulse and an adjusted angle of
    max_angle maps to max_pulse. *)
Theorem angle_to_pulse_monotone_exact (motor : string) (off : R) :
  0 < max_angle self ->
  motor_offset self motor = Return off ->
  (forall a b : R,
     0 <= adjusted a off -> adjusted a off <= adjusted b off ->
     adjusted b off <= max_angle self ->
     exists pa pb : Z,
       angle_to_pulse self a motor = Return pa
       /\ angle_to_pulse self b motor = Return pb
       /\ ((min_pulse self <= max_pulse self)%Z -> (pa <= pb)%Z)
       /\ ((min_pulse self >= max_pulse self)%Z -> (pb <= pa)%Z))
  /\ (forall a : R,
        adjusted a off = 0 ->
        angle_to_pulse self a motor = Return (min_pulse self))
  /\ (forall a : R,
        adjusted a off = max_angle self ->
        angle_to_pulse self a motor = Return (max_pulse self)).
Proof.
  intros Hmax Hoff.
  assert (Hnz : max_angle self <> 0) by lra.
  split; [| split].
  - intros a b Ha Hab Hb.
    exists (pulse_at (adjusted a off)), (pulse_at (adjusted b off)).
    split; [apply angle_to_pulse_in_range; auto; lra |].
    split; [apply angle_to_pulse_in_range; auto; lra |].
    apply pulse_at_monotone; assumption.
  - intros a Ha.
    rewrite (angle_to_pulse_in_range a motor off) by (auto; lra).
    rewrite Ha. now rewrite pulse_at_0.
  - intros a Ha.
    rewrite (angle_to_pulse_in_range a motor off) by (auto; lra).
    rewrite Ha. now rewrite pulse_at_max.
Qed.

End Mapper.

Lemma angle_to_pulse_monotone_exact_witness :
  angle_to_pulse (fst default_controller) 68 "motor1" = Return 2590%Z
  /\ angle_to_pulse (fst default_controller) 338 "motor1" = Return 570%Z.
Proof.
  assert (Hmax : 0 < max_angle (fst default_controller)) by (simpl; lra).
  assert (Hoff : motor_offset (fst default_controller) "motor1" = Return 68)
    by reflexivity.
  destruct (angle_to_pulse_monotone_exact
              (fst default_controller) "motor1" 68 Hmax Hoff)
    as (_ & Hmin & Hmaxp).
  split.
  - apply Hmin. unfold adjusted. replace (68 - 68) with 0 by ring.
    apply py_mod_small. lra.
  - apply Hmaxp. unfold adjusted. replace (338 - 68) with 270 by ring.
    simpl. apply py_mod_small. lra.
Defined.

(** C8 as written fails: on a controller with [max_angle] = 0, motor 2 at
    the angle 214 has the adjusted angle 0, which is both ends of
    [0, max_angle]; it maps neither to [min_pulse] nor to [max_pulse]: the
    division of line 64 raises ZeroDivisionError. *)
Lemma angle_to_pulse_zero_span_endpoint :
  motor_offset (fst zero_span_controller) "motor2" = Return 214
  /\ adjusted 214 214 = 0
  /\ max_angle (fst zero_span_controller) = 0
  /\ angle_to_pulse (fst zero_span_controller) 214 "motor2"
     = Raise ZeroDivisionError.
Proof.
  assert (Hadj : adjusted 214 214 = 0).
  { unfold adjusted. replace (214 - 214) with 0 by ring.
    apply py_mod_small. lra. }
  repeat split; try reflexivity; try exact Hadj.
  unfold angle_to_pulse.
  change (motor_offset (fst zero_span_controller) "motor2") with (Return 214).
  cbv beta iota zeta. fold (adjusted 214 214). rewrite Hadj.
  change (max_angle (fst zero_span_controller)) with 0.
  rewrite Rleb_true by lra. simpl.
  unfold py_div. now rewrite Reqb_true.
Qed.

(* ===================================================================== *)
(** * The single move: validation, commit, actuation *)
(* ===================================================================== *)

Section Move.

Variable self : Config.

(** [flat_move] is its validation followed, on success, by the commit and
    the two actuator commands. *)
Lemma flat_move_stages (tx ty : R) :
  flat_move self tx ty
  = match solve self tx ty with
    | Some d => actuate self d
    | None => ret None
    end.
Proof.
  unfold flat_move, solve, candidate, in_workspace.
  destruct (Rltb ty 0); [reflexivity |].
  destruct (find_circle_intersections [x1 self; y1 self] _ _ _) as [i1 |];
    [| reflexivity].
  destruct (find_circle_intersections [x2 self; y2 self] _ _ _) as [i2 |];
    [| reflexivity].
  destruct (select_intersection_point (PyArray i1)) as [s1 |]; [| reflexivity].
  destruct (select_intersection_point (PyArray i2)) as [s2 |]; [| reflexivity].
  destruct (calculate_angle _ (PyArray s1)) as [a1 |]; [| reflexivity].
  destruct (calculate_angle _ (PyArray s2)) as [a2 |]; [| reflexivity].
  cbn [md_angle1 md_angle2].
  destruct (Rltb a1 45 || Rgtb a1 315); [reflexivity |].
  destruct (Rleb a2 135 || Rgeb a2 225); reflexivity.
Qed.

(** What the actuation does to the state, case by case. *)
Lemma actuate_cases (d : MoveData) (st : State) :
  let committed := {| x := md_x3 d; y := md_y3 d; pwm := pwm st |} in
  match angle_to_pulse self (md_angle1 d) "motor1" with
  | Raise e => actuate self d st = (Raise e, committed)
  | Return p1 =>
      let sent1 :=
        {| x := md_x3 d; y := md_y3 d;
           pwm := pwm st ++ [setServoPulse (motor1_channel self) p1] |} in
      match angle_to_pulse self (md_angle2 d) "motor2" with
      | Raise e => actuate self d st = (Raise e, sent1)
      | Return p2 =>
          actuate self d st
          = (Return (Some d),
             {| x := md_x3 d; y := md_y3 d;
                pwm := (pwm st ++ [setServoPulse (motor1_channel self) p1])
                       ++ [setServoPulse (motor2_channel self) p2] |})
      end
  end.
Proof.
  unfold actuate, bind, lift, set_tcp, pwm_setServoPulse, ret. simpl.
  destruct (angle_to_pulse self (md_angle1 d) "motor1") as [p1 | e1];
    [| reflexivity].
  simpl.
  destruct (angle_to_pulse self (md_angle2 d) "motor2") as [p2 | e2];
    reflexivity.
Qed.

Lemma actuate_not_none (d : MoveData) (st st' : State) :
  actuate self d st <> (Return None, st').
Proof.
  pose proof (actuate_cases d st) as H. cbv zeta in H.
  destruct (angle_to_pulse self (md_angle1 d) "motor1") as [p1 | e1];
    [| rewrite H; discriminate].
  destruct (angle_to_pulse self (md_angle2 d) "motor2") as [p2 | e2];
    rewrite H; discriminate.
Qed.

Lemma candidate_target (tx ty : R) (d : MoveData) :
  candidate self tx ty = Some d -> md_x3 d = tx /\ md_y3 d = ty.
Proof.
  unfold candidate.
  repeat match goal with
         | |- context [match ?o with Some _ => _ | None => _ end] =>
             destruct o; try discriminate
         end.
  intros H. injection H as <-. auto.
Qed.

Lemma solve_some (tx ty : R) (d : MoveData) :
  solve self tx ty = Some d ->
  0 <= ty /\ candidate self tx ty = Some d
  /\ in_workspace (md_angle1 d) (md_angle2 d) = true.
Proof.
  unfold solve. destruct (Rltb ty 0) eqn:Ey; [discriminate |].
  apply Rltb_iff_false in Ey.
  destruct (candidate self tx ty) as [d' |]; [| discriminate].
  destruct (in_workspace _ _) eqn:Ew; [| discriminate].
  intros H. injection H as <-. auto.
Qed.

Lemma in_workspace_iff (a1 a2 : R) :
  in_workspace a1 a2 = true <-> 45 <= a1 <= 315 /\ ~ (135 < a2 < 225).
Proof.
  unfold in_workspace. split.
  - intros H. cmp_cases; try discriminate; lra.
  - intros [H1 H2]. cmp_cases; try reflexivity; lra.
Qed.

Lemma in_workspace_false_iff (a1 a2 : R) :
  in_workspace a1 a2 = false <-> a1 < 45 \/ 315 < a1 \/ 135 < a2 < 225.
Proof.
  unfold in_workspace. split.
  - intros H. cmp_cases; try discriminate; lra.
  - intros H. cmp_cases; try reflexivity; lra.
Qed.

(** The validation fails exactly at one of the named stages. *)
Lemma solve_none_iff (tx ty : R) :
  solve self tx ty = None <-> Rejected self tx ty.
Proof.
  split.
  - unfold solve. destruct (Rltb ty 0) eqn:Ey.
    { intros _. apply reject_negative_y. now apply Rltb_iff. }
    destruct (candidate self tx ty) as [d |] eqn:Ec.
    + destruct (in_workspace _ _) eqn:Ew; [discriminate |]. intros _.
      apply (reject_outside_bands self tx ty (md_angle1 d) (md_angle2 d)).
      * unfold joint_angles. now rewrite Ec.
      * now apply in_workspace_false_iff.
    + intros _. unfold candidate in Ec.
      destruct (find_circle_intersections [x1 self; y1 self] _ _ _)
        as [i1 |] eqn:E1; [| apply reject_no_intersection; now left].
      destruct (find_circle_intersections [x2 self; y2 self] _ _ _)
        as [i2 |] eqn:E2; [| apply reject_no_intersection; now right].
      destruct (select_intersection_point (PyArray i1)) as [s1 |] eqn:S1;
        [| apply (reject_no_selection self tx ty i1 i2); auto].
      destruct (select_intersection_point (PyArray i2)) as [s2 |] eqn:S2;
        [| apply (reject_no_selection self tx ty i1 i2); auto].
      destruct (calculate_angle _ (PyArray s1)) as [a1 |] eqn:A1;
        [| apply (reject_no_angle self tx ty i1 i2 s1 s2); auto].
      destruct (calculate_angle _ (PyArray s2)) as [a2 |] eqn:A2;
        [| apply (reject_no_angle self tx ty i1 i2 s1 s2); auto].
      discriminate.
  - intros Hrej. unfold solve.
    destruct Hrej as [Hy | Hi | i1 i2 E1 E2 Hs | i1 i2 s1 s2 E1 E2 S1 S2 Ha
                      | a1 a2 Hj Hb].
    + now rewrite Rltb_true.
    + destruct (Rltb ty 0); [reflexivity |]. unfold candidate.
      destruct Hi as [Hi | Hi]; rewrite Hi; [reflexivity |].
      now destruct (find_circle_intersections [x1 self; y1 self] _ _ _).
    + destruct (Rltb ty 0); [reflexivity |]. unfold candidate.
      rewrite E1, E2.
      destruct Hs as [Hs | Hs]; rewrite Hs; [reflexivity |].
      now destruct (select_intersection_point (PyArray i1)).
    + destruct (Rltb ty 0); [reflexivity |]. unfold candidate.
      rewrite E1, E2, S1, S2.
      destruct Ha as [Ha | Ha]; rewrite Ha; [reflexivity |].
      now destruct (calculate_angle _ (PyArray s1)).
    + destruct (Rltb ty 0); [reflexivity |].
      unfold joint_angles in Hj.
      destruct (candidate self tx ty) as [d |]; [| reflexivity].
      injection Hj as <- <-.
      now rewrite (proj2 (in_workspace_false_iff _ _) Hb).
Qed.

Lemma flat_move_none_rejected (tx ty : R) (st st' : State) :
  flat_move self tx ty st = (Return None, st') ->
  Rejected self tx ty /\ st' = st.
Proof.
  rewrite flat_move_stages.
  destruct (solve self tx ty) as [d |] eqn:Es.
  - intros H. now apply actuate_not_none in H.
  - unfold ret. intros H. injection H as <-.
    split; [now apply solve_none_iff | reflexivity].
Qed.

Lemma flat_move_rejected (tx ty : R) (st : State) :
  Rejected self tx ty -> flat_move self tx ty st = (Return None, st).
Proof.
  intros Hrej. rewrite flat_move_stages.
  now rewrite (proj2 (solve_none_iff tx ty) Hrej).
Qed.

(** C2.  When a target is turned down at a validation stage (negative y, no
    circle intersection for an arm, no selected point, no angle, or an
    angle outside the workspace bands), [flat_move] returns [None] (it
    does not raise) and the state is the one before the call: the TCP
    position is unchanged and the driver has received no command. *)
Theorem flat_move_rejected_unchanged (tx ty : R) (st : State) :
  Rejected self tx ty ->
  exists st' : State,
    flat_move self tx ty st = (Return None, st')
    /\ x st' = x st /\ y st' = y st /\ pwm st' = pwm st
    /\ servo_commands_since st st' = [].
Proof.
  intros Hrej. exists st.
  rewrite (flat_move_rejected tx ty st Hrej).
  repeat split. unfold servo_commands_since. apply skipn_all.
Qed.

End Move.

(* ===================================================================== *)
(** * One arm: which point is selected, and where it points *)
(* ===================================================================== *)

Lemma calculate_angle_bearing_eq (px py qx qy : R) :
  calculate_angle (PyArray (array1 [px; py])) (PyArray (array1 [qx; qy]))
  = Some (bearing (qy - py) (qx - px)).
Proof. reflexivity. Qed.

Lemma bearing_quadrant_2 (dy dx : R) :
  dx < 0 -> 0 <= dy -> 90 < bearing dy dx <= 180.
Proof.
  intros Hx Hy. pose proof PI_RGT_0 as Hpi.
  pose proof (atan_bound (dy / dx)) as Hb.
  assert (Hd : 90 < degrees (arctan2 dy dx) <= 180).
  { unfold arctan2.
    rewrite (Rltb_false 0 dx) by lra. rewrite (Rltb_true dx 0) by lra.
    rewrite (Rleb_true 0 dy) by lra.
    assert (Hq : dy / dx <= 0).
    { unfold Rdiv. assert (/ dx < 0) by now apply Rinv_lt_0_compat. nra. }
    assert (Ha : atan (dy / dx) <= 0).
    { destruct Hq as [Hq | Hq].
      - pose proof (atan_increasing _ _ Hq) as Hi. rewrite atan_0 in Hi. lra.
      - rewrite Hq, atan_0. lra. }
    unfold degrees. split.
    - apply Rmult_lt_reg_r with PI; [lra |]. field_simplify; lra.
    - apply Rmult_le_reg_r with PI; [lra |]. field_simplify; lra. }
  unfold bearing. cbv zeta. rewrite Rltb_false by lra. exact Hd.
Qed.

Lemma bearing_quadrant_4 (dy dx : R) :
  0 < dx -> dy < 0 -> 270 < bearing dy dx < 360.
Proof.
  intros Hx Hy. pose proof PI_RGT_0 as Hpi.
  pose proof (atan_bound (dy / dx)) as Hb.
  assert (Hd : -90 < degrees (arctan2 dy dx) < 0).
  { unfold arctan2. rewrite (Rltb_true 0 dx) by lra.
    assert (Hq : dy / dx < 0).
    { unfold Rdiv. assert (0 < / dx) by now apply Rinv_0_lt_compat. nra. }
    pose proof (atan_increasing _ _ Hq) as Ha. rewrite atan_0 in Ha.
    unfold degrees. split.
    - apply Rmult_lt_reg_r with PI; [lra |]. field_simplify; lra.
    - apply Rmult_lt_reg_r with PI; [lra |]. field_simplify; lra. }
  unfold bearing. cbv zeta. rewrite Rltb_true by lra. lra.
Qed.

Lemma bearing_west (dy dx : R) :
  dx < 0 -> Rabs dy < - dx -> 135 < bearing dy dx < 225.
Proof.
  intros Hx Hy. pose proof PI_RGT_0 as Hpi.
  assert (Hinv : / dx < 0) by now apply Rinv_lt_0_compat.
  assert (Hq : -1 < dy / dx < 1).
  { assert (Hdy : dx < dy < - dx).
    { unfold Rabs in Hy. destruct (Rcase_abs dy); lra. }
    assert (Hm : dy / dx * - dx = - dy) by (field; lra).
    split; apply Rmult_lt_reg_r with (- dx); try lra; rewrite Hm; lra. }
  assert (Ha : - (PI / 4) < atan (dy / dx) < PI / 4).
  { split.
    - rewrite <- atan_1, <- atan_opp. apply atan_increasing. lra.
    - rewrite <- atan_1. apply atan_increasing. lra. }
  unfold bearing, arctan2. cbv zeta.
  rewrite (Rltb_false 0 dx) by lra. rewrite (Rltb_true dx 0) by lra.
  destruct (Rle_dec 0 dy) as [Hpos | Hneg].
  - rewrite (Rleb_true 0 dy) by lra.
    assert (Hd : 135 < degrees (atan (dy / dx) + PI) < 225).
    { unfold degrees. split.
      - apply Rmult_lt_reg_r with PI; [lra |]. field_simplify; lra.
      - apply Rmult_lt_reg_r with PI; [lra |]. field_simplify; lra. }
    rewrite Rltb_false by lra. exact Hd.
  - rewrite (Rleb_false 0 dy) by lra.
    assert (Hq' : 0 < dy / dx).
    { unfold Rdiv. nra. }
    pose proof (atan_increasing _ _ Hq') as Ha0. rewrite atan_0 in Ha0.
    assert (Hd : -180 < degrees (atan (dy / dx) - PI) < -135).
    { unfold degrees. split.
      - apply Rmult_lt_reg_r with PI; [lra |]. field_simplify; lra.
      - apply Rmult_lt_reg_r with PI; [lra |]. field_simplify; lra. }
    rewrite Rltb_true by lra. lra.
Qed.

Section Arm.

Variables px py r tx ty f : R.

Let d : R := norm [tx - px; ty - py].
Let a : R := (r ^ 2 - f ^ 2 + d ^ 2) / (2 * d).
Let h : R := sqrt (r ^ 2 - a ^ 2).

(** With the target not below the pivot, the first point of the pair (the
    one to the left of the direction pivot -> target) has the smaller x
    and is the one selected. *)
Lemma arm_angle_left :
  Rabs (r - f) <= d <= r + f -> eps <= d -> py <= ty ->
  arm_angle px py r tx ty f
  = Some (array1 [px + a * (tx - px) / d + h * (- (ty - py)) / d;
                  py + a * (ty - py) / d + h * (tx - px) / d],
          bearing (py + a * (ty - py) / d + h * (tx - px) / d - py)
                  (px + a * (tx - px) / d + h * (- (ty - py)) / d - px)).
Proof.
  intros Hband Heps Hy. pose proof eps_pos as He.
  assert (Hd : 0 < d) by lra.
  assert (Hh : 0 <= h) by apply sqrt_pos.
  unfold arm_angle.
  rewrite (find_circle_intersections_some px py r tx ty f Hband Heps).
  cbv zeta. fold d. fold a. fold h. cbv beta iota.
  rewrite select_stack2.
  assert (Hoff : h * (- (ty - py)) / d <= 0).
  { assert (Hn : h * (- (ty - py)) <= 0) by nra.
    assert (Hi : 0 < / d) by now apply Rinv_0_lt_compat.
    unfold Rdiv. nra. }
  rewrite Rltb_false by lra.
  rewrite calculate_angle_bearing_eq. reflexivity.
Qed.

End Arm.

(** The same, with the distance, the foot [a] and the half-chord [h] given
    by equations, as a concrete evaluation supplies them. *)
Lemma arm_angle_left_at (px py r tx ty f d a h : R) :
  norm [tx - px; ty - py] = d ->
  a = (r ^ 2 - f ^ 2 + d ^ 2) / (2 * d) ->
  h = sqrt (r ^ 2 - a ^ 2) ->
  Rabs (r - f) <= d <= r + f -> eps <= d -> py <= ty ->
  arm_angle px py r tx ty f
  = Some (array1 [px + a * (tx - px) / d + h * (- (ty - py)) / d;
                  py + a * (ty - py) / d + h * (tx - px) / d],
          bearing (py + a * (ty - py) / d + h * (tx - px) / d - py)
                  (px + a * (tx - px) / d + h * (- (ty - py)) / d - px)).
Proof.
  intros Hd Ha Hh Hband Heps Hy. subst d a h.
  now apply arm_angle_left.
Qed.

Lemma sqrt_gt (b v : R) : 0 <= b -> b * b < v -> b < sqrt v.
Proof.
  intros Hb Hv. apply Rle_lt_trans with (sqrt (b * b)).
  - rewrite sqrt_square; lra.
  - apply sqrt_lt_1; nra.
Qed.

Lemma sqrt_lt (b v : R) : 0 <= b -> 0 <= v -> v < b * b -> sqrt v < b.
Proof.
  intros Hb Hv0 Hv. apply Rlt_le_trans with (sqrt (b * b)).
  - apply sqrt_lt_1; nra.
  - rewrite sqrt_square; lra.
Qed.

Lemma norm_of_square (u v d : R) : 0 <= d -> u * u + v * v = d * d -> norm [u; v] = d.
Proof. intros Hd H. rewrite norm_pair, H. now apply sqrt_square. Qed.

Section MoveByArms.

Variable self : Config.

Lemma candidate_arms (tx ty : R) :
  candidate self tx ty
  = match arm_angle (x1 self) (y1 self) (arm self) tx ty (forearm self),
          arm_angle (x2 self) (y2 self) (arm self) tx ty (forearm self) with
    | Some (s1, angle1), Some (s2, angle2) =>
        Some {| md_x1 := x1 self; md_y1 := y1 self; md_r1 := arm self;
                md_x2 := x2 self; md_y2 := y2 self; md_r2 := arm self;
                md_x3 := tx; md_y3 := ty; md_r3 := forearm self;
                md_intersection1 := s1; md_intersection2 := s2;
                md_angle1 := angle1; md_angle2 := angle2 |}
    | _, _ => None
    end.
Proof.
  unfold candidate, arm_angle.
  destruct (find_circle_intersections [x1 self; y1 self] _ _ _) as [i1 |];
    [| reflexivity].
  destruct (find_circle_intersections [x2 self; y2 self] _ _ _) as [i2 |].
  2:{ destruct (select_intersection_point (PyArray i1)) as [s1 |];
        [| reflexivity].
      now destruct (calculate_angle _ (PyArray s1)). }
  destruct (select_intersection_point (PyArray i1)) as [s1 |]; [| reflexivity].
  destruct (select_intersection_point (PyArray i2)) as [s2 |].
  2:{ now destruct (calculate_angle _ (PyArray s1)). }
  destruct (calculate_angle _ (PyArray s1)) as [a1 |]; [| reflexivity].
  destruct (calculate_angle _ (PyArray s2)) as [a2 |]; reflexivity.
Qed.

(** An arm-2 angle strictly between 135 and 225 turns the target down,
    whatever arm 1 does. *)
Lemma solve_arm2_in_dead_band (tx ty : R) (s2 : ndarray) (angle2 : R) :
  arm_angle (x2 self) (y2 self) (arm self) tx ty (forearm self)
  = Some (s2, angle2) ->
  135 < angle2 < 225 ->
  solve self tx ty = None.
Proof.
  intros Harm Hband. unfold solve.
  destruct (Rltb ty 0); [reflexivity |].
  rewrite candidate_arms, Harm.
  destruct (arm_angle (x1 self) _ _ _ _ _) as [[s1 a1] |]; [| reflexivity].
  cbn [md_angle1 md_angle2].
  rewrite (proj2 (in_workspace_false_iff a1 angle2)); auto.
Qed.

Lemma solve_arms (tx ty : R) (s1 s2 : ndarray) (angle1 angle2 : R) :
  0 <= ty ->
  arm_angle (x1 self) (y1 self) (arm self) tx ty (forearm self)
  = Some (s1, angle1) ->
  arm_angle (x2 self) (y2 self) (arm self) tx ty (forearm self)
  = Some (s2, angle2) ->
  45 <= angle1 <= 315 -> ~ (135 < angle2 < 225) ->
  solve self tx ty
  = Some {| md_x1 := x1 self; md_y1 := y1 self; md_r1 := arm self;
            md_x2 := x2 self; md_y2 := y2 self; md_r2 := arm self;
            md_x3 := tx; md_y3 := ty; md_r3 := forearm self;
            md_intersection1 := s1; md_intersection2 := s2;
            md_angle1 := angle1; md_angle2 := angle2 |}.
Proof.
  intros Hy H1 H2 Hb1 Hb2. unfold solve.
  rewrite Rltb_false by lra.
  rewrite candidate_arms, H1, H2. cbn [md_angle1 md_angle2].
  now rewrite (proj2 (in_workspace_iff angle1 angle2)).
Qed.

End MoveByArms.

(* ===================================================================== *)
(** * The default controller at concrete targets *)
(* ===================================================================== *)

(** Arm 2 of the default controller, for its own home position (0, 100):
    the selected point lies to the lower left of the pivot, at an angle
    strictly between 135 and 225 degrees. *)
Lemma home_arm2 :
  exists (s2 : ndarray) (angle2 : R),
    arm_angle (160 / 2) (- 50) 180 0 100 260 = Some (s2, angle2)
    /\ 135 < angle2 < 225.
Proof.
  assert (Hd : norm [0 - 160 / 2; 100 - - 50] = 170).
  { apply norm_of_square; lra. }
  pose (a := (180 ^ 2 - 260 ^ 2 + 170 ^ 2) / (2 * 170)).
  pose (h := sqrt (180 ^ 2 - a ^ 2)).
  assert (Ha : a = - 315 / 17) by (unfold a; field).
  assert (Hh : 61 < h).
  { unfold h. apply sqrt_gt; [lra |]. rewrite Ha. lra. }
  eexists; eexists. split.
  - apply (arm_angle_left_at (160 / 2) (- 50) 180 0 100 260 170 a h);
      try reflexivity; try exact Hd.
    + unfold Rabs. destruct (Rcase_abs (180 - 260)); lra.
    + unfold eps. lra.
    + lra.
  - apply bearing_west; rewrite Ha.
    + lra.
    + unfold Rabs. destruct (Rcase_abs _); lra.
Qed.

(** [SCARAController().flat_move(0, 100)]: the default controller turns
    down a move to its own initial position. *)
Lemma home_rejected (st : State) :
  flat_move (fst default_controller) 0 100 st = (Return None, st).
Proof.
  destruct home_arm2 as (s2 & angle2 & Harm & Hband).
  rewrite flat_move_stages.
  rewrite (solve_arm2_in_dead_band (fst default_controller) 0 100 s2 angle2);
    [reflexivity | exact Harm | exact Hband].
Qed.

(** The distance from either pivot of the default geometry to (0, 0),
    and the quantities derived from it. *)
Lemma origin_distance :
  94 < sqrt 8900 < 95 /\ sqrt 8900 * sqrt 8900 = 8900.
Proof.
  split; [split |].
  - apply sqrt_gt; lra.
  - apply sqrt_lt; lra.
  - apply sqrt_sqrt. lra.
Qed.

Lemma origin_foot (d a : R) :
  94 < d < 95 -> d * d = 8900 ->
  a = (180 ^ 2 - 260 ^ 2 + d ^ 2) / (2 * d) ->
  -140 < a < -138.
Proof.
  intros Hd Hdd Ha.
  assert (Had : a * d = -13150).
  { rewrite Ha. field_simplify; [| lra].
    replace (d ^ 2) with (d * d) by ring. rewrite Hdd. lra. }
  split; nra.
Qed.

Lemma origin_half_chord (a h : R) :
  -140 < a < -138 -> h = sqrt (180 ^ 2 - a ^ 2) -> 100 < h < 180.
Proof.
  intros Ha Hh. rewrite Hh. split.
  - apply sqrt_gt; nra.
  - apply sqrt_lt; nra.
Qed.

(** Arm 1 of the default geometry, target (0, 0): the selected point is up
    and to the left of the pivot. *)
Lemma origin_arm1 :
  exists (s1 : ndarray) (angle1 : R),
    arm_angle (- 160 / 2) (- 50) 180 0 0 260 = Some (s1, angle1)
    /\ 90 < angle1 <= 180.
Proof.
  destruct origin_distance as [Hd Hdd].
  pose (a := (180 ^ 2 - 260 ^ 2 + sqrt 8900 ^ 2) / (2 * sqrt 8900)).
  pose (h := sqrt (180 ^ 2 - a ^ 2)).
  pose proof (origin_foot (sqrt 8900) a Hd Hdd eq_refl) as Ha.
  pose proof (origin_half_chord a h Ha eq_refl) as Hh.
  assert (Hi : 0 < / sqrt 8900) by (apply Rinv_0_lt_compat; lra).
  eexists; eexists. split.
  - apply (arm_angle_left_at (- 160 / 2) (- 50) 180 0 0 260 (sqrt 8900) a h);
      try reflexivity.
    + rewrite norm_pair. f_equal. lra.
    + unfold Rabs. destruct (Rcase_abs (180 - 260)); lra.
    + unfold eps. lra.
    + lra.
  - apply bearing_quadrant_2.
    + replace (- 160 / 2 + a * (0 - - 160 / 2) / sqrt 8900
               + h * - (0 - - 50) / sqrt 8900 - - 160 / 2)
        with ((80 * a - 50 * h) * / sqrt 8900) by (field; lra).
      nra.
    + replace (- 50 + a * (0 - - 50) / sqrt 8900
               + h * (0 - - 160 / 2) / sqrt 8900 - - 50)
        with ((50 * a + 80 * h) * / sqrt 8900) by (field; lra).
      nra.
Qed.

(** Arm 2, target (0, 0): the selected point is down and to the right of
    the pivot. *)
Lemma origin_arm2 :
  exists (s2 : ndarray) (angle2 : R),
    arm_angle (160 / 2) (- 50) 180 0 0 260 = Some (s2, angle2)
    /\ 270 < angle2 < 360.
Proof.
  destruct origin_distance as [Hd Hdd].
  pose (a := (180 ^ 2 - 260 ^ 2 + sqrt 8900 ^ 2) / (2 * sqrt 8900)).
  pose (h := sqrt (180 ^ 2 - a ^ 2)).
  pose proof (origin_foot (sqrt 8900) a Hd Hdd eq_refl) as Ha.
  pose proof (origin_half_chord a h Ha eq_refl) as Hh.
  assert (Hi : 0 < / sqrt 8900) by (apply Rinv_0_lt_compat; lra).
  eexists; eexists. split.
  - apply (arm_angle_left_at (160 / 2) (- 50) 180 0 0 260 (sqrt 8900) a h);
      try reflexivity.
    + rewrite norm_pair. f_equal. lra.
    + unfold Rabs. destruct (Rcase_abs (180 - 260)); lra.
    + unfold eps. lra.
    + lra.
  - apply bearing_quadrant_4.
    + replace (160 / 2 + a * (0 - 160 / 2) / sqrt 8900
               + h * - (0 - - 50) / sqrt 8900 - 160 / 2)
        with ((- 80 * a - 50 * h) * / sqrt 8900) by (field; lra).
      nra.
    + replace (- 50 + a * (0 - - 50) / sqrt 8900
               + h * (0 - 160 / 2) / sqrt 8900 - - 50)
        with ((50 * a - 80 * h) * / sqrt 8900) by (field; lra).
      nra.
Qed.

Lemma adjusted_small (angle off : R) :
  0 <= angle - off < 360 -> adjusted angle off = angle - off.
Proof. intros H. unfold adjusted. now apply py_mod_small. Qed.

(** [SCARAController().flat_move(0, 0)] succeeds: the TCP is moved to
    (0, 0) and each motor channel receives one pulse. *)
Lemma origin_reached (st : State) :
  exists (d : MoveData) (p1 p2 : Z),
    flat_move (fst default_controller) 0 0 st
    = (Return (Some d),
       {| x := 0; y := 0;
          pwm := (pwm st ++ [setServoPulse 0 p1]) ++ [setServoPulse 1 p2] |})
    /\ 90 < md_angle1 d <= 180 /\ 270 < md_angle2 d < 360.
Proof.
  destruct origin_arm1 as (s1 & a1 & Harm1 & Hb1).
  destruct origin_arm2 as (s2 & a2 & Harm2 & Hb2).
  pose proof (solve_arms (fst default_controller) 0 0 s1 s2 a1 a2) as Hs.
  specialize (Hs (Rle_refl 0) Harm1 Harm2).
  assert (Hs' := Hs ltac:(lra) ltac:(lra)). clear Hs.
  rewrite flat_move_stages, Hs'.
  match goal with |- context [actuate _ ?d st] => set (md := d) end.
  pose proof (actuate_cases (fst default_controller) md st) as Hact.
  cbv zeta in Hact.
  assert (H1 : exists p1, angle_to_pulse (fst default_controller) a1 "motor1"
                          = Return p1).
  { eexists. apply (angle_to_pulse_in_range _ a1 "motor1" 68).
    - reflexivity.
    - simpl. lra.
    - rewrite adjusted_small by lra. simpl. lra. }
  assert (H2 : exists p2, angle_to_pulse (fst default_controller) a2 "motor2"
                          = Return p2).
  { eexists. apply (angle_to_pulse_in_range _ a2 "motor2" 214).
    - reflexivity.
    - simpl. lra.
    - rewrite adjusted_small by lra. simpl. lra. }
  destruct H1 as (p1 & H1). destruct H2 as (p2 & H2).
  change (md_angle1 md) with a1 in Hact. change (md_angle2 md) with a2 in Hact.
  rewrite H1, H2 in Hact.
  exists md, p1, p2. split; [exact Hact |]. simpl. lra.
Qed.

(** [SCARAController(motor2_angle_offset=0.0).flat_move(0, 0)]: the target
    is validated and committed, motor 1 receives its pulse, and the mapping
    of arm 2's angle raises. *)
Lemma detuned_origin_raises (st : State) :
  exists (d : MoveData) (p1 : Z),
    solve (fst detuned_controller) 0 0 = Some d
    /\ angle_to_pulse (fst detuned_controller) (md_angle1 d) "motor1" = Return p1
    /\ angle_to_pulse (fst detuned_controller) (md_angle2 d) "motor2"
       = Raise ValueError.
Proof.
  destruct origin_arm1 as (s1 & a1 & Harm1 & Hb1).
  destruct origin_arm2 as (s2 & a2 & Harm2 & Hb2).
  pose proof (solve_arms (fst detuned_controller) 0 0 s1 s2 a1 a2) as Hs.
  specialize (Hs (Rle_refl 0) Harm1 Harm2).
  assert (Hs' := Hs ltac:(lra) ltac:(lra)). clear Hs.
  eexists; eexists. split; [exact Hs' |]. cbn [md_angle1 md_angle2]. split.
  - apply (angle_to_pulse_in_range _ a1 "motor1" 68).
    + reflexivity.
    + simpl. lra.
    + rewrite adjusted_small by lra. simpl. lra.
  - apply (angle_to_pulse_out_of_range _ a2 "motor2" 0).
    + reflexivity.
    + rewrite adjusted_small by lra. simpl. lra.
Qed.

(* ===================================================================== *)
(** * Properties of the single move *)
(* ===================================================================== *)

Lemma flat_move_rejected_unchanged_witness :
  exists st' : State,
    flat_move (fst default_controller) 0 100 (snd default_controller)
    = (Return None, st')
    /\ x st' = x (snd default_controller)
    /\ y st' = y (snd default_controller)
    /\ pwm st' = pwm (snd default_controller)
    /\ servo_commands_since (snd default_controller) st' = [].
Proof.
  apply (flat_move_rejected_unchanged (fst default_controller) 0 100).
  apply solve_none_iff.
  destruct home_arm2 as (s2 & angle2 & Harm & Hband).
  exact (solve_arm2_in_dead_band (fst default_controller) 0 100 s2 angle2
           Harm Hband).
Defined.

Lemma solve_target (self : Config) (tx ty : R) (d : MoveData) :
  solve self tx ty = Some d -> md_x3 d = tx /\ md_y3 d = ty.
Proof.
  intros Hs. apply solve_some in Hs. destruct Hs as (_ & Hc & _).
  now apply candidate_target in Hc.
Qed.

Lemma flat_move_raise_inv (self : Config) (tx ty : R) (st st' : State) (e : exn) :
  flat_move self tx ty st = (Raise e, st') ->
  exists d : MoveData,
    solve self tx ty = Some d
    /\ x st' = tx /\ y st' = ty
    /\ (angle_to_pulse self (md_angle1 d) "motor1" = Raise e
        \/ angle_to_pulse self (md_angle2 d) "motor2" = Raise e).
Proof.
  rewrite flat_move_stages.
  destruct (solve self tx ty) as [d |] eqn:Es; [| discriminate].
  destruct (solve_target self tx ty d Es) as [Hx Hy].
  pose proof (actuate_cases self d st) as Hact. cbv zeta in Hact.
  intros Hrun. exists d. split; [reflexivity |].
  destruct (angle_to_pulse self (md_angle1 d) "motor1") as [p1 | e1].
  - destruct (angle_to_pulse self (md_angle2 d) "motor2") as [p2 | e2].
    + rewrite Hact in Hrun. discriminate.
    + rewrite Hact in Hrun. injection Hrun as <- <-. simpl. auto.
  - rewrite Hact in Hrun. injection Hrun as <- <-. simpl. auto.
Qed.

(** C3 (amended).  (1) Whenever [flat_move] raises, the target had passed the whole
    validation and the TCP state is already the target.  (2) If the
    validation succeeds and the mapping of arm 1's angle raises, [flat_move]
    raises that exception in the state where the TCP is the target and no
    command was sent; (3) if the mapping of arm 1 succeeds and that of arm 2
    raises, it raises in the state where the TCP is the target and motor 1
    has received its pulse.  (4) [angle_to_pulse] raises its
    ValueError exactly when the motor identifier is neither "motor1" nor
    "motor2" or the adjusted angle is outside [0, max_angle]; for a
    non-zero [max_angle] these are the only cases in which it raises, and
    in every other case it returns a pulse. *)
Theorem flat_move_commits_before_mapping (self : Config) :
  (forall (tx ty : R) (st st' : State) (e : exn),
     flat_move self tx ty st = (Raise e, st') ->
     (exists d, solve self tx ty = Some d) /\ x st' = tx /\ y st' = ty)
  /\ (forall (tx ty : R) (st : State) (d : MoveData) (e : exn),
        solve self tx ty = Some d ->
        angle_to_pulse self (md_angle1 d) "motor1" = Raise e ->
        flat_move self tx ty st
        = (Raise e, {| x := tx; y := ty; pwm := pwm st |}))
  /\ (forall (tx ty : R) (st : State) (d : MoveData) (p1 : Z) (e : exn),
        solve self tx ty = Some d ->
        angle_to_pulse self (md_angle1 d) "motor1" = Return p1 ->
        angle_to_pulse self (md_angle2 d) "motor2" = Raise e ->
        flat_move self tx ty st
        = (Raise e,
           {| x := tx; y := ty;
              pwm := pwm st ++ [setServoPulse (motor1_channel self) p1] |}))
  /\ (forall (angle : R) (motor : string),
        let fails :=
          (motor <> "motor1"%string /\ motor <> "motor2"%string)
          \/ (exists off : R,
                motor_offset self motor = Return off
                /\ ~ (0 <= adjusted angle off <= max_angle self)) in
        (angle_to_pulse self angle motor = Raise ValueError <-> fails)
        /\ (max_angle self <> 0 ->
            ((exists e, angle_to_pulse self angle motor = Raise e) <-> fails)
            /\ (~ fails -> exists pulse : Z,
                  angle_to_pulse self angle motor = Return pulse))).
Proof.
  split; [| split; [| split]].
  - intros tx ty st st' e Hrun.
    destruct (flat_move_raise_inv self tx ty st st' e Hrun)
      as (d & Hs & Hx & Hy & _).
    split; [now exists d | auto].
  - intros tx ty st d e Hs H1.
    destruct (solve_target self tx ty d Hs) as [Hx Hy].
    rewrite flat_move_stages, Hs.
    pose proof (actuate_cases self d st) as Hact. cbv zeta in Hact.
    rewrite H1 in Hact. now rewrite Hact, Hx, Hy.
  - intros tx ty st d p1 e Hs H1 H2.
    destruct (solve_target self tx ty d Hs) as [Hx Hy].
    rewrite flat_move_stages, Hs.
    pose proof (actuate_cases self d st) as Hact. cbv zeta in Hact.
    rewrite H1, H2 in Hact. now rewrite Hact, Hx, Hy.
  - intros angle motor fails.
    assert (Hfail : fails -> angle_to_pulse self angle motor = Raise ValueError).
    { intros [[N1 N2] | (off & Hoff & Hout)].
      - now apply angle_to_pulse_unknown_motor.
      - now apply (angle_to_pulse_out_of_range self angle motor off). }
    assert (Hdec : fails
                   \/ exists off : R,
                        motor_offset self motor = Return off
                        /\ 0 <= adjusted angle off <= max_angle self).
    { destruct (motor_offset_cases self motor)
        as [[E Hoff] | [[E Hoff] | (N1 & N2 & _)]].
      - destruct (Rle_dec 0 (adjusted angle (motor1_angle_offset self)));
          destruct (Rle_dec (adjusted angle (motor1_angle_offset self))
                            (max_angle self));
          try (right; eexists; split; [exact Hoff | split; assumption]);
          left; right; eexists; (split; [exact Hoff | lra]).
      - destruct (Rle_dec 0 (adjusted angle (motor2_angle_offset self)));
          destruct (Rle_dec (adjusted angle (motor2_angle_offset self))
                            (max_angle self));
          try (right; eexists; split; [exact Hoff | split; assumption]);
          left; right; eexists; (split; [exact Hoff | lra]).
      - left. left. auto. }
    split.
    + split; [| exact Hfail].
      intros Hv. destruct Hdec as [Hf | (off & Hoff & Hin)]; [exact Hf |].
      exfalso. unfold angle_to_pulse in Hv. rewrite Hoff in Hv.
      fold (adjusted angle off) in Hv.
      rewrite (Rleb_true _ _ (proj1 Hin)), (Rleb_true _ _ (proj2 Hin)) in Hv.
      simpl in Hv. unfold py_div in Hv.
      destruct (Reqb (max_angle self) 0); discriminate.
    + intros Hmax.
      assert (Hok : ~ fails -> exists pulse : Z,
                      angle_to_pulse self angle motor = Return pulse).
      { intros Hnf. destruct Hdec as [Hf | (off & Hoff & Hin)];
          [contradiction |].
        eexists. exact (angle_to_pulse_in_range self angle motor off
                          Hoff Hmax Hin). }
      split; [| exact Hok]. split.
      * intros (e & He). destruct Hdec as [Hf | (off & Hoff & Hin)];
          [exact Hf |].
        rewrite (angle_to_pulse_in_range self angle motor off Hoff Hmax Hin)
          in He.
        discriminate.
      * intros Hf. exists ValueError. now apply Hfail.
Qed.

Lemma flat_move_commits_before_mapping_witness :
  exists (p1 : Z),
    flat_move (fst detuned_controller) 0 0 (snd detuned_controller)
    = (Raise ValueError,
       {| x := 0; y := 0;
          pwm := pwm (snd detuned_controller) ++ [setServoPulse 0 p1] |}).
Proof.
  destruct (detuned_origin_raises (snd detuned_controller))
    as (d & p1 & Hs & H1 & H2).
  exists p1.
  exact (proj1 (proj2 (proj2
           (flat_move_commits_before_mapping (fst detuned_controller))))
           0 0 (snd detuned_controller) d p1 ValueError Hs H1 H2).
Defined.

(** C3 as written fails: on a controller with [max_angle] = 0, motor 1 at
    the angle 68 is a recognised motor whose adjusted angle, 0, is inside
    [0, max_angle]; and [angle_to_pulse] raises all the same, the
    ZeroDivisionError of the division of line 64. *)
Lemma angle_to_pulse_zero_span_raises :
  motor_offset (fst zero_span_controller) "motor1" = Return 68
  /\ 0 <= adjusted 68 68 <= max_angle (fst zero_span_controller)
  /\ angle_to_pulse (fst zero_span_controller) 68 "motor1"
     = Raise ZeroDivisionError.
Proof.
  assert (Hadj : adjusted 68 68 = 0).
  { unfold adjusted. replace (68 - 68) with 0 by ring.
    apply py_mod_small. lra. }
  split; [reflexivity | split].
  - rewrite Hadj. simpl. lra.
  - unfold angle_to_pulse.
    change (motor_offset (fst zero_span_controller) "motor1") with (Return 68).
    cbv beta iota zeta. fold (adjusted 68 68). rewrite Hadj.
    change (max_angle (fst zero_span_controller)) with 0.
    rewrite Rleb_true by lra. simpl.
    unfold py_div. now rewrite Reqb_true.
Qed.

(** C4.  A [flat_move] that returns the move data computed arm 1's angle
    within [45, 315] and arm 2's angle not strictly between 135 and 225; and
    a target whose computed angles violate one of the two bands is turned
    down: [None] is returned and the state is unchanged. *)
Theorem flat_move_workspace_bands (self : Config) (tx ty : R) (st : State) :
  (forall (d : MoveData) (st' : State),
     flat_move self tx ty st = (Return (Some d), st') ->
     joint_angles self tx ty = Some (md_angle1 d, md_angle2 d)
     /\ 45 <= md_angle1 d <= 315
     /\ ~ (135 < md_angle2 d < 225))
  /\ (forall angle1 angle2 : R,
        joint_angles self tx ty = Some (angle1, angle2) ->
        angle1 < 45 \/ 315 < angle1 \/ 135 < angle2 < 225 ->
        flat_move self tx ty st = (Return None, st)).
Proof.
  split.
  - intros d st' Hrun. rewrite flat_move_stages in Hrun.
    destruct (solve self tx ty) as [d' |] eqn:Es; [| discriminate].
    pose proof (actuate_cases self d' st) as Hact. cbv zeta in Hact.
    assert (Hd : d' = d).
    { destruct (angle_to_pulse self (md_angle1 d') "motor1") as [p1 | e1];
        [| rewrite Hact in Hrun; discriminate].
      destruct (angle_to_pulse self (md_angle2 d') "motor2") as [p2 | e2];
        rewrite Hact in Hrun; [| discriminate].
      now injection Hrun. }
    subst d'. apply solve_some in Es. destruct Es as (_ & Hc & Hw).
    unfold joint_angles. rewrite Hc. split; [reflexivity |].
    now apply in_workspace_iff.
  - intros a1 a2 Hj Hout. rewrite flat_move_stages.
    rewrite (proj2 (solve_none_iff self tx ty)); [reflexivity |].
    now apply (reject_outside_bands self tx ty a1 a2).
Qed.

Lemma flat_move_workspace_bands_witness :
  exists (d : MoveData) (st' : State),
    flat_move (fst default_controller) 0 0 (snd default_controller)
    = (Return (Some d), st')
    /\ joint_angles (fst default_controller) 0 0
       = Some (md_angle1 d, md_angle2 d)
    /\ 45 <= md_angle1 d <= 315
    /\ ~ (135 < md_angle2 d < 225).
Proof.
  destruct (origin_reached (snd default_controller))
    as (d & p1 & p2 & Hrun & _).
  eexists d, _. split; [exact Hrun |].
  exact (proj1 (flat_move_workspace_bands
                  (fst default_controller) 0 0 (snd default_controller))
           d _ Hrun).
Defined.

(* ===================================================================== *)
(** * The interpolated move *)
(* ===================================================================== *)

Lemma linspace_negative (start stop : R) (num : Z) :
  (num < 0)%Z -> linspace start stop num = Raise ValueError.
Proof.
  intros H. unfold linspace. apply Z.ltb_lt in H. now rewrite H.
Qed.

Lemma linspace_one (start stop : R) : linspace start stop 1 = Return [start].
Proof. unfold linspace. simpl. do 2 f_equal. ring. Qed.

Lemma linspace_spaced (start stop : R) (num : Z) :
  (2 <= num)%Z ->
  linspace start stop num
  = Return (map (fun i => start + INR i * ((stop - start) / IZR (num - 1)))
                (seq 0 (Z.to_nat num))).
Proof.
  intros Hn. unfold linspace.
  assert (H0 : (num <? 0)%Z = false) by (apply Z.ltb_ge; lia).
  assert (H1 : (0 <? num - 1)%Z = true) by (apply Z.ltb_lt; lia).
  assert (H2 : (1 <? num)%Z = true) by (apply Z.ltb_lt; lia).
  rewrite H0, H1, H2. f_equal.
  rewrite map_map.
  assert (Hlen : Z.to_nat num = S (Z.to_nat (num - 1))) by lia.
  rewrite Hlen, seq_S, !map_app. simpl.
  rewrite removelast_last. f_equal.
  - apply map_ext. intros i. ring.
  - f_equal. rewrite INR_IZR_INZ, Z2Nat.id by lia.
    field. apply not_0_IZR. lia.
Qed.

Lemma combine_map_seq {A B : Type} (g1 : nat -> A) (g2 : nat -> B) (l : list nat) :
  combine (map g1 l) (map g2 l) = map (fun i => (g1 i, g2 i)) l.
Proof. induction l as [| i l IH]; simpl; [reflexivity | now rewrite IH]. Qed.

Section Interpolation.

Variable self : Config.

Lemma interpolated_flat_move_waypoints
    (tx ty : R) (steps : Z) (delay : R) (st : State) :
  interpolated_flat_move self tx ty steps delay st
  = match waypoints st tx ty steps with
    | Return wps => visit self delay wps st
    | Raise e => (Raise e, st)
    end.
Proof.
  unfold interpolated_flat_move, waypoints, bind, lift.
  destruct (linspace (x st) tx steps) as [xs | e]; [| reflexivity].
  destruct (linspace (y st) ty steps) as [ys | e]; reflexivity.
Qed.

Lemma waypoints_one (tx ty : R) (st : State) :
  waypoints st tx ty 1 = Return [(x st, y st)].
Proof. unfold waypoints. now rewrite !linspace_one. Qed.

Lemma waypoints_spaced (tx ty : R) (steps : Z) (st : State) :
  (2 <= steps)%Z ->
  waypoints st tx ty steps
  = Return (map (spaced st tx ty steps) (seq 0 (Z.to_nat steps))).
Proof.
  intros Hn. unfold waypoints. rewrite !linspace_spaced by assumption.
  now rewrite combine_map_seq.
Qed.

Lemma waypoints_negative (tx ty : R) (steps : Z) (st : State) :
  (steps < 0)%Z -> waypoints st tx ty steps = Raise ValueError.
Proof. intros H. unfold waypoints. now rewrite linspace_negative. Qed.

Lemma spaced_first (tx ty : R) (steps : Z) (st : State) :
  spaced st tx ty steps 0 = (x st, y st).
Proof. unfold spaced. simpl. f_equal; ring. Qed.

Lemma spaced_last (tx ty : R) (steps : Z) (st : State) :
  (2 <= steps)%Z ->
  spaced st tx ty steps (Z.to_nat (steps - 1)) = (tx, ty).
Proof.
  intros Hn. unfold spaced. rewrite INR_IZR_INZ, Z2Nat.id by lia.
  f_equal; field; apply not_0_IZR; lia.
Qed.

(** Neighbouring waypoints differ by the same displacement. *)
Lemma spaced_step (tx ty : R) (steps : Z) (st : State) (i : nat) :
  fst (spaced st tx ty steps (S i)) - fst (spaced st tx ty steps i)
  = (tx - x st) / IZR (steps - 1)
  /\ snd (spaced st tx ty steps (S i)) - snd (spaced st tx ty steps i)
     = (ty - y st) / IZR (steps - 1).
Proof. unfold spaced. cbn [fst snd]. rewrite S_INR. split; ring. Qed.

Lemma flat_move_some_inv (tx ty : R) (st st' : State) (d : MoveData) :
  flat_move self tx ty st = (Return (Some d), st') ->
  exists p1 p2 : Z,
    st' = {| x := tx; y := ty;
             pwm := pwm st ++ [setServoPulse (motor1_channel self) p1;
                               setServoPulse (motor2_channel self) p2] |}.
Proof.
  rewrite flat_move_stages.
  destruct (solve self tx ty) as [d' |] eqn:Es; [| discriminate].
  destruct (solve_target self tx ty d' Es) as [Hx Hy].
  pose proof (actuate_cases self d' st) as Hact. cbv zeta in Hact.
  destruct (angle_to_pulse self (md_angle1 d') "motor1") as [p1 | e1];
    [| rewrite Hact; discriminate].
  destruct (angle_to_pulse self (md_angle2 d') "motor2") as [p2 | e2];
    rewrite Hact; [| discriminate].
  intros H. injection H as _ <-. exists p1, p2.
  rewrite Hx, Hy, <- app_assoc. reflexivity.
Qed.

Lemma visit_all (delay : R) (wps : list (R * R)) (st st' : State) :
  0 <= delay -> Visits self wps st st' ->
  visit self delay wps st = (Return true, st').
Proof.
  intros Hdelay Hv. induction Hv as [st | w rest d st st1 st2 Hmove _ IH].
  - reflexivity.
  - destruct w as [wx wy]. simpl in Hmove. simpl. unfold bind at 1.
    rewrite Hmove. unfold bind, sleep. rewrite Rltb_false by lra. exact IH.
Qed.

Lemma visit_stops (delay : R) (done rest : list (R * R)) (w : R * R)
    (st st1 st1' : State) :
  0 <= delay -> Visits self done st st1 ->
  flat_move self (fst w) (snd w) st1 = (Return None, st1') ->
  visit self delay (done ++ w :: rest) st = (Return false, st1').
Proof.
  intros Hdelay Hv Hfail.
  induction Hv as [st | w0 rest0 d st st0 st2 Hmove _ IH].
  - destruct w as [wx wy]. simpl in Hfail. simpl. unfold bind.
    now rewrite Hfail.
  - destruct w0 as [wx0 wy0]. simpl in Hmove. simpl. unfold bind at 1.
    rewrite Hmove. unfold bind at 1, sleep. rewrite Rltb_false by lra.
    unfold ret at 1. now apply IH.
Qed.

Lemma visits_tcp (wps : list (R * R)) (st st' : State) :
  Visits self wps st st' -> wps <> [] ->
  (x st', y st') = last wps (x st, y st).
Proof.
  intros Hv. induction Hv as [st | w rest d st st1 st2 Hmove Hrest IH].
  - congruence.
  - intros _. destruct (flat_move_some_inv _ _ _ _ _ Hmove) as (p1 & p2 & ->).
    destruct rest as [| w' rest'].
    + inversion Hrest; subst. simpl. now destruct w.
    + rewrite IH by discriminate.
      change (last (w :: w' :: rest') (x st, y st))
        with (last (w' :: rest') (x st, y st)).
      clear. generalize w'. induction rest' as [| w'' r IHr]; intros v.
      * reflexivity.
      * change (last (v :: w'' :: r) ?d) with (last (w'' :: r) d).
        apply IHr.
Qed.

(** Each visited waypoint has sent one pulse to motor 1 and then one to
    motor 2, in the order of the waypoints. *)
Lemma visits_commands (wps : list (R * R)) (st st' : State) :
  Visits self wps st st' ->
  exists pulses : list (Z * Z),
    length pulses = length wps
    /\ pwm st'
       = pwm st
         ++ flat_map (fun p => [setServoPulse (motor1_channel self) (fst p);
                                setServoPulse (motor2_channel self) (snd p)])
              pulses.
Proof.
  intros Hv. induction Hv as [st | w rest d st st1 st2 Hmove _ IH].
  - exists []. simpl. now rewrite app_nil_r.
  - destruct (flat_move_some_inv _ _ _ _ _ Hmove) as (p1 & p2 & ->).
    destruct IH as (pulses & Hlen & Hpwm).
    exists ((p1, p2) :: pulses). split; [simpl; now rewrite Hlen |].
    rewrite Hpwm. simpl. now rewrite <- app_assoc.
Qed.

(** What a finished loop has done. *)
Lemma visit_inv (delay : R) (wps : list (R * R)) (st st' : State) (b : bool) :
  visit self delay wps st = (Return b, st') ->
  if b then Visits self wps st st'
  else exists done w rest,
         wps = done ++ w :: rest
         /\ Visits self done st st'
         /\ flat_move self (fst w) (snd w) st' = (Return None, st').
Proof.
  revert st. induction wps as [| [wx wy] rest IH]; intros st.
  - simpl. unfold ret. intros H. injection H as <- <-. constructor.
  - simpl. unfold bind at 1.
    destruct (flat_move self wx wy st) as [[[d |] | e] st1] eqn:Hmove;
      [| | discriminate].
    + unfold bind at 1, sleep.
      destruct (Rltb delay 0); [discriminate |]. unfold ret at 1.
      intros Hrest. apply IH in Hrest. destruct b.
      * now apply (visits_cons self (wx, wy) rest d st st1 st').
      * destruct Hrest as (done & w & rest' & -> & Hv & Hfail).
        exists ((wx, wy) :: done), w, rest'. split; [reflexivity |].
        split; [| exact Hfail].
        now apply (visits_cons self (wx, wy) done d st st1 st').
    + unfold ret. intros H. injection H as <- <-.
      destruct (flat_move_none_rejected self wx wy st st1 Hmove) as [_ ->].
      exists [], (wx, wy), rest. split; [reflexivity |].
      split; [constructor | exact Hmove].
Qed.

End Interpolation.

Lemma last_map_seq {A : Type} (g : nat -> A) (m : nat) (dflt : A) :
  last (map g (seq 0 (S m))) dflt = g m.
Proof. rewrite seq_S, map_app. simpl. apply last_last. Qed.

Lemma visits_tcp_or_start (self : Config) (wps : list (R * R)) (st st' : State) :
  Visits self wps st st' -> (x st', y st') = last wps (x st, y st).
Proof.
  intros Hv. destruct wps as [| w rest].
  - inversion Hv; subst. reflexivity.
  - now apply (visits_tcp self (w :: rest) st st' Hv).
Qed.

(** X13.  With at least two steps and a non-negative delay:
    [interpolated_flat_move] visits exactly [steps] evenly spaced points,
    the first being the TCP position and the last the target; when every
    move returns its data the result is [True] and the TCP is the target;
    when the moves for the waypoints [done] return their data and the next
    waypoint is turned down, the result is [False] and the state is the one
    the last of [done] left (the initial state when [done] is empty); and
    these are the only ways in which it returns. *)
Theorem interpolated_flat_move_path
    (self : Config) (tx ty : R) (steps : Z) (delay : R) (st : State) :
  (2 <= steps)%Z -> 0 <= delay ->
  exists wps : list (R * R),
    waypoints st tx ty steps = Return wps
    /\ wps = map (spaced st tx ty steps) (seq 0 (Z.to_nat steps))
    /\ length wps = Z.to_nat steps
    /\ nth 0 wps (0, 0) = (x st, y st)
    /\ last wps (x st, y st) = (tx, ty)
    /\ (forall st' : State,
          Visits self wps st st' ->
          interpolated_flat_move self tx ty steps delay st = (Return true, st')
          /\ (x st', y st') = (tx, ty))
    /\ (forall (done rest : list (R * R)) (w : R * R) (st1 : State),
          wps = done ++ w :: rest ->
          Visits self done st st1 ->
          Rejected self (fst w) (snd w) ->
          interpolated_flat_move self tx ty steps delay st = (Return false, st1)
          /\ (x st1, y st1) = last done (x st, y st))
    /\ (forall (b : bool) (st' : State),
          interpolated_flat_move self tx ty steps delay st = (Return b, st') ->
          if b then Visits self wps st st'
          else exists done w rest,
                 wps = done ++ w :: rest
                 /\ Visits self done st st'
                 /\ Rejected self (fst w) (snd w)).
Proof.
  intros Hn Hdelay.
  exists (map (spaced st tx ty steps) (seq 0 (Z.to_nat steps))).
  assert (Hw := waypoints_spaced tx ty steps st Hn).
  assert (Hrun := interpolated_flat_move_waypoints self tx ty steps delay st).
  rewrite Hw in Hrun.
  assert (Hlen : Z.to_nat steps = S (Z.to_nat (steps - 1))) by lia.
  assert (Hlast : last (map (spaced st tx ty steps) (seq 0 (Z.to_nat steps)))
                       (x st, y st) = (tx, ty)).
  { rewrite Hlen, last_map_seq. now apply spaced_last. }
  split; [exact Hw |]. split; [reflexivity |].
  split; [now rewrite length_map, length_seq |].
  split; [rewrite Hlen; simpl; apply spaced_first |].
  split; [exact Hlast |].
  split; [| split].
  - intros st' Hv. rewrite Hrun. split.
    + now apply visit_all.
    + rewrite (visits_tcp_or_start self _ st st' Hv). exact Hlast.
  - intros done rest w st1 Hsplit Hv Hrej. rewrite Hrun, Hsplit. split.
    + apply (visit_stops self delay done rest w st st1 st1 Hdelay Hv).
      now apply flat_move_rejected.
    + now apply (visits_tcp_or_start self done st st1).
  - intros b st' Hret. rewrite Hrun in Hret.
    apply visit_inv in Hret. destruct b; [exact Hret |].
    destruct Hret as (done & w & rest & Hsplit & Hv & Hfail).
    exists done, w, rest. split; [exact Hsplit |]. split; [exact Hv |].
    now destruct (flat_move_none_rejected self _ _ _ _ Hfail).
Qed.

(** C10 (amended).  With steps >= 1 the first waypoint is the current TCP
    position, so the first move is a move to where the controller already
    is: if that move is turned down the result is [False], and if it raises
    the exception propagates, in both cases before any other waypoint is
    tried.  With steps = 1 it is the only waypoint: the outcome does not
    depend on the target, and for a non-negative delay the result is [True],
    with the TCP where it was, when the move to the current position returns
    its data. *)
Theorem interpolated_flat_move_starts_at_tcp
    (self : Config) (tx ty : R) (steps : Z) (delay : R) (st : State) :
  (1 <= steps)%Z ->
  (exists rest : list (R * R),
     waypoints st tx ty steps = Return ((x st, y st) :: rest))
  /\ (forall st' : State,
        flat_move self (x st) (y st) st = (Return None, st') ->
        interpolated_flat_move self tx ty steps delay st = (Return false, st'))
  /\ (forall (e : exn) (st' : State),
        flat_move self (x st) (y st) st = (Raise e, st') ->
        interpolated_flat_move self tx ty steps delay st = (Raise e, st'))
  /\ (steps = 1%Z ->
      waypoints st tx ty steps = Return [(x st, y st)]
      /\ (forall tx' ty' : R,
            interpolated_flat_move self tx' ty' steps delay st
            = interpolated_flat_move self tx ty steps delay st)
      /\ (forall (d : MoveData) (st' : State),
            0 <= delay ->
            flat_move self (x st) (y st) st = (Return (Some d), st') ->
            interpolated_flat_move self tx ty steps delay st = (Return true, st')
            /\ x st' = x st /\ y st' = y st)).
Proof.
  intros Hn.
  assert (Hrun := interpolated_flat_move_waypoints self tx ty steps delay st).
  assert (Hfirst : exists rest : list (R * R),
             waypoints st tx ty steps = Return ((x st, y st) :: rest)).
  { destruct (Z.eq_dec steps 1) as [-> | Hne].
    - exists []. apply waypoints_one.
    - rewrite waypoints_spaced by lia.
      assert (Hlen : Z.to_nat steps = S (Z.to_nat (steps - 1))) by lia.
      rewrite Hlen. simpl. rewrite spaced_first. eexists. reflexivity. }
  split; [exact Hfirst |].
  destruct Hfirst as (rest & Hw). rewrite Hw in Hrun.
  split; [| split].
  - intros st' Hmove. rewrite Hrun. simpl. unfold bind. now rewrite Hmove.
  - intros e st' Hmove. rewrite Hrun. simpl. unfold bind. now rewrite Hmove.
  - intros ->. split; [apply waypoints_one |]. split.
    + intros tx' ty'. rewrite !interpolated_flat_move_waypoints.
      now rewrite !waypoints_one.
    + intros d st' Hdelay Hmove.
      rewrite interpolated_flat_move_waypoints, waypoints_one.
      destruct (flat_move_some_inv self _ _ _ _ _ Hmove) as (p1 & p2 & E).
      split.
      * apply visit_all; [exact Hdelay |].
        apply (visits_cons self (x st, y st) [] d st st' st'); [exact Hmove |].
        constructor.
      * rewrite E. simpl. auto.
Qed.

Lemma interpolated_flat_move_starts_at_tcp_witness :
  exists st' : State,
    interpolated_flat_move (fst origin_controller) 10 0 1 (1 / 10)
      (snd origin_controller)
    = (Return true, st')
    /\ x st' = 0 /\ y st' = 0.
Proof.
  destruct (origin_reached (snd origin_controller))
    as (d & p1 & p2 & Hmove & _).
  destruct (interpolated_flat_move_starts_at_tcp
              (fst origin_controller) 10 0 1 (1 / 10) (snd origin_controller))
    as (_ & _ & _ & Hone); [lia |].
  destruct (Hone eq_refl) as (_ & _ & Hok).
  eexists. apply (Hok d).
  - lra.
  - exact Hmove.
Defined.

(** C10 as written fails: on a freshly constructed default controller,
    an interpolated move with one step returns [False], because the move to
    the controller's own initial position (0, 100) is turned down. *)
Lemma interpolated_one_step_from_home_fails :
  interpolated_flat_move (fst default_controller) 10 100 1 (1 / 10)
    (snd default_controller)
  = (Return false, snd default_controller).
Proof.
  rewrite interpolated_flat_move_waypoints, waypoints_one.
  change (x (snd default_controller)) with 0.
  change (y (snd default_controller)) with 100.
  unfold visit, bind.
  now rewrite (home_rejected (snd default_controller)).
Qed.

(** C9, at steps = 1.  From the TCP position (0, 0), which the controller
    accepts, [interpolated_flat_move(10, 0, steps=1)] has the single
    waypoint (0, 0); it returns [True], the TCP is still (0, 0) and not the
    target (10, 0), and the only two commands sent are those of the move to
    (0, 0). *)
Theorem interpolated_single_step_skips_target :
  waypoints (snd origin_controller) 10 0 1 = Return [(0, 0)]
  /\ exists (st' : State) (p1 p2 : Z),
       interpolated_flat_move (fst origin_controller) 10 0 1 (1 / 10)
         (snd origin_controller)
       = (Return true, st')
       /\ (x st', y st') = (0, 0)
       /\ (x st', y st') <> (10, 0)
       /\ servo_commands_since (snd origin_controller) st'
          = [setServoPulse 0 p1; setServoPulse 1 p2].
Proof.
  split; [apply waypoints_one |].
  destruct (origin_reached (snd origin_controller))
    as (d & p1 & p2 & Hmove & _).
  eexists; exists p1, p2.
  rewrite interpolated_flat_move_waypoints, waypoints_one.
  split.
  - apply visit_all; [lra |].
    eapply (visits_cons (fst origin_controller) (0, 0) [] d); [exact Hmove |].
    constructor.
  - simpl. split; [reflexivity |]. split; [| reflexivity].
    intros H. injection H as H. lra.
Qed.

(* ===================================================================== *)
(** * Further properties of the circle intersection solver *)
(* ===================================================================== *)

(** A returned pair comes from centres of length 2 inside the band, and is
    the pair of the closed form. *)
Lemma find_circle_intersections_some_inv
    (p1 : list R) (r1 : R) (p2 : list R) (r2 : R) (i : ndarray) :
  find_circle_intersections p1 r1 p2 r2 = Some i ->
  exists p1x p1y p2x p2y : R,
    p1 = [p1x; p1y] /\ p2 = [p2x; p2y]
    /\ Rabs (r1 - r2) <= norm [p2x - p1x; p2y - p1y] <= r1 + r2
    /\ eps <= norm [p2x - p1x; p2y - p1y]
    /\ find_circle_intersections [p1x; p1y] r1 [p2x; p2y] r2 = Some i.
Proof.
  intros Hsome.
  destruct p1 as [| p1x [| p1y [| ? ?]]]; try discriminate;
    try (destruct p2 as [| ? [| ? [| ? ?]]]; discriminate).
  destruct p2 as [| p2x [| p2y [| ? ?]]]; try discriminate.
  exists p1x, p1y, p2x, p2y. split; [reflexivity |]. split; [reflexivity |].
  destruct (Rlt_dec (r1 + r2) (norm [p2x - p1x; p2y - p1y])) as [H1 | H1];
    [rewrite find_circle_intersections_none in Hsome by auto; discriminate |].
  destruct (Rlt_dec (norm [p2x - p1x; p2y - p1y]) (Rabs (r1 - r2))) as [H2 | H2];
    [rewrite find_circle_intersections_none in Hsome by auto; discriminate |].
  destruct (Rlt_dec (norm [p2x - p1x; p2y - p1y]) eps) as [H3 | H3];
    [rewrite find_circle_intersections_none in Hsome by auto; discriminate |].
  repeat split; try lra. exact Hsome.
Qed.








(* ===================================================================== *)
(** * Further properties of the angle calculator *)
(* ===================================================================== *)





Lemma arctan2_opposite (dy dx : R) :
  dx <> 0 \/ dy <> 0 ->
  arctan2 (- dy) (- dx) = arctan2 dy dx + PI
  \/ arctan2 (- dy) (- dx) = arctan2 dy dx - PI.
Proof.
  intros Hnz. unfold arctan2.
  destruct (Rlt_dec 0 dx) as [Hpos | Hnpos].
  - rewrite (Rltb_true 0 dx Hpos).
    rewrite (Rltb_false 0 (- dx)) by lra. rewrite (Rltb_true (- dx) 0) by lra.
    replace (- dy / - dx) with (dy / dx) by (field; lra).
    destruct (Rleb 0 (- dy)); auto.
  - rewrite (Rltb_false 0 dx) by lra.
    destruct (Rlt_dec dx 0) as [Hneg | Hnneg].
    + rewrite (Rltb_true dx 0 Hneg). rewrite (Rltb_true 0 (- dx)) by lra.
      replace (- dy / - dx) with (dy / dx) by (field; lra).
      destruct (Rleb 0 dy); [right | left]; ring.
    + assert (Hx : dx = 0) by lra. subst dx.
      replace (- 0) with 0 by ring. rewrite !(Rltb_false 0 0) by lra.
      destruct (Rlt_dec 0 dy) as [Hyp | Hynp].
      * rewrite (Rltb_true 0 dy Hyp). rewrite (Rltb_false 0 (- dy)) by lra.
        rewrite (Rltb_true (- dy) 0) by lra. right. field.
      * assert (Hy : dy < 0) by (destruct Hnz; lra).
        rewrite (Rltb_false 0 dy) by lra. rewrite (Rltb_true dy 0 Hy).
        rewrite (Rltb_true 0 (- dy)) by lra. left. field.
Qed.

(** X5.  Exchanging the two points turns the angle by half a turn: for two
    distinct points the angle from the second to the first and the angle
    from the first to the second differ by exactly 180 degrees. *)
Theorem calculate_angle_opposite (px py qx qy : R) :
  px <> qx \/ py <> qy ->
  exists forth back : R,
    calculate_angle (PyArray (array1 [px; py])) (PyArray (array1 [qx; qy]))
    = Some forth
    /\ calculate_angle (PyArray (array1 [qx; qy])) (PyArray (array1 [px; py]))
       = Some back
    /\ (back = forth + 180 \/ back = forth - 180).
Proof.
  intros Hne.
  exists (bearing (qy - py) (qx - px)), (bearing (py - qy) (px - qx)).
  split; [apply calculate_angle_bearing_eq |].
  split; [apply calculate_angle_bearing_eq |].
  assert (Hnz : qx - px <> 0 \/ qy - py <> 0)
    by (destruct Hne; [left | right]; lra).
  replace (py - qy) with (- (qy - py)) by ring.
  replace (px - qx) with (- (qx - px)) by ring.
  pose proof (degrees_range _ (arctan2_range (qy - py) (qx - px))) as Hr.
  pose proof (degrees_range _ (arctan2_range (- (qy - py)) (- (qx - px)))) as Hr'.
  assert (Hopp : degrees (arctan2 (- (qy - py)) (- (qx - px)))
                 = degrees (arctan2 (qy - py) (qx - px)) + 180
                 \/ degrees (arctan2 (- (qy - py)) (- (qx - px)))
                    = degrees (arctan2 (qy - py) (qx - px)) - 180).
  { pose proof PI_RGT_0 as Hpi.
    destruct (arctan2_opposite _ _ Hnz) as [E | E]; rewrite E;
      [left | right]; unfold degrees; field; lra. }
  unfold bearing. cbv zeta.
  set (g := degrees (arctan2 (qy - py) (qx - px))) in *.
  set (g' := degrees (arctan2 (- (qy - py)) (- (qx - px)))) in *.
  clearbody g g'.
  destruct Hopp as [E | E]; cmp_cases; lra.
Qed.

Lemma calculate_angle_opposite_witness :
  exists forth back : R,
    calculate_angle (PyArray (array1 [0; 0])) (PyArray (array1 [1; 0]))
    = Some forth
    /\ calculate_angle (PyArray (array1 [1; 0])) (PyArray (array1 [0; 0]))
       = Some back
    /\ (back = forth + 180 \/ back = forth - 180).
Proof.
  apply (calculate_angle_opposite 0 0 1 0). left. lra.
Defined.

(* ===================================================================== *)
(** * Further properties of the single move *)
(* ===================================================================== *)

Lemma skipn_length_app {A : Type} (l c : list A) : skipn (length l) (l ++ c) = c.
Proof. induction l as [| a l IH]; simpl; [reflexivity | exact IH]. Qed.


Section MoveFacts.

Variable self : Config.

Lemma candidate_some_inv (tx ty : R) (d : MoveData) :
  candidate self tx ty = Some d ->
  exists i1 i2 s1 s2 : ndarray,
    find_circle_intersections
      [x1 self; y1 self] (arm self) [tx; ty] (forearm self) = Some i1
    /\ find_circle_intersections
         [x2 self; y2 self] (arm self) [tx; ty] (forearm self) = Some i2
    /\ select_intersection_point (PyArray i1) = Some s1
    /\ select_intersection_point (PyArray i2) = Some s2
    /\ calculate_angle (PyArray (array1 [x1 self; y1 self])) (PyArray s1)
       = Some (md_angle1 d)
    /\ calculate_angle (PyArray (array1 [x2 self; y2 self])) (PyArray s2)
       = Some (md_angle2 d)
    /\ md_intersection1 d = s1 /\ md_intersection2 d = s2.
Proof.
  unfold candidate.
  destruct (find_circle_intersections [x1 self; y1 self] _ _ _) as [i1 |] eqn:E1;
    [| discriminate].
  destruct (find_circle_intersections [x2 self; y2 self] _ _ _) as [i2 |] eqn:E2;
    [| discriminate].
  destruct (select_intersection_point (PyArray i1)) as [s1 |] eqn:S1;
    [| discriminate].
  destruct (select_intersection_point (PyArray i2)) as [s2 |] eqn:S2;
    [| discriminate].
  destruct (calculate_angle _ (PyArray s1)) as [a1 |] eqn:A1; [| discriminate].
  destruct (calculate_angle _ (PyArray s2)) as [a2 |] eqn:A2; [| discriminate].
  intros H. injection H as <-. exists i1, i2, s1, s2. simpl. auto 10.
Qed.

Lemma flat_move_success_inv (tx ty : R) (st st' : State) (d : MoveData) :
  flat_move self tx ty st = (Return (Some d), st') ->
  solve self tx ty = Some d
  /\ exists p1 p2 : Z,
       angle_to_pulse self (md_angle1 d) "motor1" = Return p1
       /\ angle_to_pulse self (md_angle2 d) "motor2" = Return p2
       /\ st' = {| x := tx; y := ty;
                   pwm := pwm st ++ [setServoPulse (motor1_channel self) p1;
                                     setServoPulse (motor2_channel self) p2] |}.
Proof.
  rewrite flat_move_stages.
  destruct (solve self tx ty) as [d' |] eqn:Es; [| discriminate].
  destruct (solve_target self tx ty d' Es) as [Hx Hy].
  pose proof (actuate_cases self d' st) as Hact. cbv zeta in Hact.
  destruct (angle_to_pulse self (md_angle1 d') "motor1") as [p1 | e1] eqn:E1;
    [| rewrite Hact; discriminate].
  destruct (angle_to_pulse self (md_angle2 d') "motor2") as [p2 | e2] eqn:E2;
    rewrite Hact; [| discriminate].
  intros H. injection H as <- <-. split; [reflexivity |].
  exists p1, p2. rewrite E1, E2, Hx, Hy, <- app_assoc. auto.
Qed.


(** X8.  [flat_move] does not read the controller's state: from any two
    states the same target gives the same result (the same data, [None], or
    the same exception) and sends the same commands. *)
Theorem flat_move_stateless (tx ty : R) (st1 st2 : State) :
  fst (flat_move self tx ty st1) = fst (flat_move self tx ty st2)
  /\ servo_commands_since st1 (snd (flat_move self tx ty st1))
     = servo_commands_since st2 (snd (flat_move self tx ty st2)).
Proof.
  rewrite !flat_move_stages.
  destruct (solve self tx ty) as [d |].
  - pose proof (actuate_cases self d st1) as Ha1.
    pose proof (actuate_cases self d st2) as Ha2.
    cbv zeta in Ha1, Ha2. unfold servo_commands_since.
    destruct (angle_to_pulse self (md_angle1 d) "motor1") as [p1 | e1].
    + destruct (angle_to_pulse self (md_angle2 d) "motor2") as [p2 | e2];
        rewrite Ha1, Ha2; simpl; rewrite <- ?app_assoc, !skipn_length_app; auto.
    + rewrite Ha1, Ha2. simpl. rewrite !skipn_all. auto.
  - unfold ret, servo_commands_since. simpl. rewrite !skipn_all. auto.
Qed.

End MoveFacts.


(** With the target not below the pivot, the selection takes the first
    point of the pair, and that point is not to the right of the directed
    line from the pivot to the target. *)
Lemma select_first_when_above (px py r tx ty f : R) (i : ndarray) :
  py <= ty ->
  find_circle_intersections [px; py] r [tx; ty] f = Some i ->
  exists ex ey : R,
    select_intersection_point (PyArray i) = Some (row i 0)
    /\ row i 0 = array1 [ex; ey]
    /\ 0 <= (tx - px) * (ey - py) - (ty - py) * (ex - px).
Proof.
  intros Hy Hsome.
  destruct (find_circle_intersections_some_inv _ _ _ _ _ Hsome)
    as (a1 & b1 & a2 & b2 & E1 & E2 & Hband & Heps & _).
  injection E1 as <- <-. injection E2 as <- <-.
  pose proof eps_pos as He.
  rewrite (find_circle_intersections_some _ _ _ _ _ _ Hband Heps) in Hsome.
  cbv zeta in Hsome.
  pose proof (f_equal (fun o => match o with Some v => v | None => i end) Hsome)
    as Ei.
  cbv beta iota in Ei. clear Hsome. subst i.
  set (d := norm [tx - px; ty - py]) in *.
  set (a := (r ^ 2 - f ^ 2 + d ^ 2) / (2 * d)) in *.
  set (h := sqrt (r ^ 2 - a ^ 2)) in *.
  assert (Hd : 0 < d) by lra.
  assert (Hh : 0 <= h) by apply sqrt_pos.
  assert (Hi : 0 < / d) by now apply Rinv_0_lt_compat.
  assert (Hoff : h * (- (ty - py)) / d <= 0).
  { assert (Hn : h * (- (ty - py)) <= 0) by nra. unfold Rdiv. nra. }
  eexists; eexists. rewrite select_stack2. rewrite Rltb_false by lra.
  split; [reflexivity |]. split; [reflexivity |].
  replace ((tx - px) * (py + a * (ty - py) / d + h * (tx - px) / d - py)
           - (ty - py) * (px + a * (tx - px) / d + h * - (ty - py) / d - px))
    with (h * ((tx - px) * (tx - px) + (ty - py) * (ty - py)) * / d)
    by (field; lra).
  apply Rmult_le_pos; [| lra]. apply Rmult_le_pos; [exact Hh |].
  apply Rplus_le_le_0_compat; apply Rle_0_sqr.
Qed.

(** X9.  For every controller built by the constructor (its pivots are at
    y = -50) and every target that [flat_move] accepts, each arm uses the
    first point of its intersection pair, and that point is not to the
    right of the directed line from the arm's pivot to the target: both
    arms bend to the same side. *)
Theorem flat_move_selects_first_point
    (channel1 channel2 channel3 : Z)
    (x0 y0 spacing arm_length forearm_length span : R)
    (pulse0 pulse1 : Z)
    (offset1 offset2 : R)
    (tx ty : R) (st st' : State) (d : MoveData) :
  flat_move
    (fst (SCARAController channel1 channel2 channel3
            x0 y0 spacing arm_length forearm_length span pulse0 pulse1
            offset1 offset2))
    tx ty st
  = (Return (Some d), st') ->
  exists (i1 i2 : ndarray) (e1x e1y e2x e2y : R),
    find_circle_intersections [- spacing / 2; - 50] arm_length [tx; ty] forearm_length
    = Some i1
    /\ find_circle_intersections [spacing / 2; - 50] arm_length [tx; ty] forearm_length
       = Some i2
    /\ md_intersection1 d = row i1 0 /\ md_intersection1 d = array1 [e1x; e1y]
    /\ md_intersection2 d = row i2 0 /\ md_intersection2 d = array1 [e2x; e2y]
    /\ 0 <= (tx - - spacing / 2) * (e1y - - 50)
            - (ty - - 50) * (e1x - - spacing / 2)
    /\ 0 <= (tx - spacing / 2) * (e2y - - 50)
            - (ty - - 50) * (e2x - spacing / 2).
Proof.
  intros Hrun.
  destruct (flat_move_success_inv _ tx ty st st' d Hrun) as (Hs & _).
  apply solve_some in Hs. destruct Hs as (Hy & Hc & _).
  destruct (candidate_some_inv _ tx ty d Hc)
    as (i1 & i2 & s1 & s2 & E1 & E2 & S1 & S2 & _ & _ & I1 & I2).
  cbn [fst SCARAController x1 y1 x2 y2 arm forearm] in E1, E2.
  assert (Hpy : - 50 <= ty) by lra.
  destruct (select_first_when_above _ _ _ _ _ _ i1 Hpy E1)
    as (e1x & e1y & Hsel1 & Hrow1 & Hleft1).
  destruct (select_first_when_above _ _ _ _ _ _ i2 Hpy E2)
    as (e2x & e2y & Hsel2 & Hrow2 & Hleft2).
  rewrite S1 in Hsel1. injection Hsel1 as Hsel1.
  rewrite S2 in Hsel2. injection Hsel2 as Hsel2.
  exists i1, i2, e1x, e1y, e2x, e2y.
  rewrite I1, I2, Hsel1, Hsel2. auto 10.
Qed.

Lemma flat_move_selects_first_point_witness :
  exists (d : MoveData) (st' : State) (i1 : ndarray),
    flat_move (fst default_controller) 0 0 (snd default_controller)
    = (Return (Some d), st')
    /\ find_circle_intersections [- 160 / 2; - 50] 180 [0; 0] 260 = Some i1
    /\ md_intersection1 d = row i1 0.
Proof.
  destruct (origin_reached (snd default_controller))
    as (d & q1 & q2 & Hrun & _).
  destruct (flat_move_selects_first_point
              0 1 2 0 100 160 180 260 270 2590 570 68 214
              0 0 _ _ d Hrun)
    as (i1 & i2 & e1x & e1y & e2x & e2y & E1 & _ & I1 & _).
  exists d. eexists. exists i1. split; [exact Hrun |]. auto.
Defined.

(* ===================================================================== *)
(** * Further properties of the angle-to-pulse mapper *)
(* ===================================================================== *)

Lemma angle_to_pulse_return_inv
    (self : Config) (angle : R) (motor : string) (pulse : Z) :
  angle_to_pulse self angle motor = Return pulse ->
  exists off : R,
    motor_offset self motor = Return off
    /\ 0 <= adjusted angle off <= max_angle self
    /\ max_angle self <> 0
    /\ pulse = py_round (adjusted angle off / max_angle self
                         * IZR (max_pulse self - min_pulse self)
                         + IZR (min_pulse self)).
Proof.
  unfold angle_to_pulse.
  destruct (motor_offset self motor) as [off | e]; [| discriminate].
  fold (adjusted angle off). intros H. exists off. split; [reflexivity |].
  destruct (Rleb 0 (adjusted angle off)) eqn:Hlo; [| discriminate].
  destruct (Rleb (adjusted angle off) (max_angle self)) eqn:Hhi;
    [| discriminate].
  simpl in H. unfold py_div in H.
  destruct (Reqb (max_angle self) 0) eqn:Hz; [discriminate |].
  injection H as <-.
  apply Rleb_iff in Hlo. apply Rleb_iff in Hhi.
  split; [auto |]. split; [| reflexivity].
  intros E. rewrite (Reqb_true _ _ E) in Hz. discriminate.
Qed.

(** X10.  A pulse returned by [angle_to_pulse] lies between [min_pulse] and
    [max_pulse], whichever is the smaller, and is within one half of the
    point of the line from [min_pulse] (adjusted angle 0) to [max_pulse]
    (adjusted angle [max_angle]) at the adjusted angle. *)
Theorem angle_to_pulse_within_calibration
    (self : Config) (angle : R) (motor : string) (pulse : Z) :
  angle_to_pulse self angle motor = Return pulse ->
  (Z.min (min_pulse self) (max_pulse self) <= pulse
   <= Z.max (min_pulse self) (max_pulse self))%Z
  /\ exists off : R,
       motor_offset self motor = Return off
       /\ Rabs (IZR pulse
                - (IZR (min_pulse self)
                   + adjusted angle off / max_angle self
                     * (IZR (max_pulse self) - IZR (min_pulse self))))
          <= 1 / 2.
Proof.
  intros Hret.
  destruct (angle_to_pulse_return_inv self angle motor pulse Hret)
    as (off & Hoff & [Hlo Hhi] & Hnz & Hp).
  assert (Hmax : 0 < max_angle self) by lra.
  set (q := adjusted angle off / max_angle self) in *.
  assert (Hq : 0 <= q <= 1).
  { unfold q. assert (Hi : 0 < / max_angle self) by now apply Rinv_0_lt_compat.
    split.
    - unfold Rdiv. apply Rmult_le_pos; lra.
    - apply Rmult_le_reg_r with (max_angle self); [lra |].
      unfold Rdiv. rewrite Rmult_assoc, Rinv_l by lra. lra. }
  rewrite minus_IZR in Hp.
  set (v := q * (IZR (max_pulse self) - IZR (min_pulse self))
            + IZR (min_pulse self)) in *.
  split.
  - destruct (Z.le_ge_cases (min_pulse self) (max_pulse self)) as [Hle | Hge].
    + rewrite Z.min_l, Z.max_r by lia.
      pose proof (IZR_le _ _ Hle) as Hr.
      assert (Hv : IZR (min_pulse self) <= v <= IZR (max_pulse self))
        by (unfold v; split; nra).
      assert (A : (py_round (IZR (min_pulse self)) <= py_round v)%Z)
        by (apply py_round_le; lra).
      assert (B : (py_round v <= py_round (IZR (max_pulse self)))%Z)
        by (apply py_round_le; lra).
      rewrite py_round_IZR in A, B. lia.
    + rewrite Z.min_r, Z.max_l by lia.
      pose proof (IZR_le _ _ Hge) as Hr.
      assert (Hv : IZR (max_pulse self) <= v <= IZR (min_pulse self))
        by (unfold v; split; nra).
      assert (A : (py_round (IZR (max_pulse self)) <= py_round v)%Z)
        by (apply py_round_le; lra).
      assert (B : (py_round v <= py_round (IZR (min_pulse self)))%Z)
        by (apply py_round_le; lra).
      rewrite py_round_IZR in A, B. lia.
  - exists off. split; [exact Hoff |]. fold q.
    replace (IZR (min_pulse self)
             + q * (IZR (max_pulse self) - IZR (min_pulse self)))
      with v by (unfold v; ring).
    rewrite Hp. apply py_round_nearest.
Qed.

Lemma default_pulse_at_offset :
  angle_to_pulse (fst default_controller) 68 "motor1" = Return 2590%Z.
Proof.
  assert (Hadj : adjusted 68 68 = 0).
  { unfold adjusted. replace (68 - 68) with 0 by ring.
    apply py_mod_small. lra. }
  rewrite (angle_to_pulse_in_range (fst default_controller) 68 "motor1" 68).
  - f_equal. rewrite Hadj. exact (pulse_at_0 (fst default_controller)).
  - reflexivity.
  - simpl. lra.
  - rewrite Hadj. simpl. lra.
Qed.

Lemma angle_to_pulse_within_calibration_witness :
  (Z.min 2590 570 <= 2590 <= Z.max 2590 570)%Z.
Proof.
  exact (proj1 (angle_to_pulse_within_calibration
                  (fst default_controller) 68 "motor1" 2590
                  default_pulse_at_offset)).
Defined.

(* ===================================================================== *)
(** * Further properties of the interpolated move *)
(* ===================================================================== *)

Lemma interpolated_flat_move_path_witness :
  exists wps : list (R * R),
    waypoints (snd default_controller) 10 100 2 = Return wps
    /\ length wps = 2%nat
    /\ nth 0 wps (0, 0) = (0, 100)
    /\ last wps (0, 100) = (10, 100).
Proof.
  destruct (interpolated_flat_move_path
              (fst default_controller) 10 100 2 0 (snd default_controller))
    as (wps & Hw & _ & Hlen & Hfirst & Hlast & _).
  - lia.
  - lra.
  - exists wps. auto.
Defined.

Lemma waypoints_first (st : State) (tx ty : R) (steps : Z) :
  (1 <= steps)%Z ->
  exists rest : list (R * R),
    waypoints st tx ty steps = Return ((x st, y st) :: rest).
Proof.
  intros Hn. destruct (Z.eq_dec steps 1) as [-> | Hne].
  - exists []. apply waypoints_one.
  - rewrite waypoints_spaced by lia.
    assert (Hlen : Z.to_nat steps = S (Z.to_nat (steps - 1))) by lia.
    rewrite Hlen. simpl. rewrite spaced_first. eexists. reflexivity.
Qed.

Lemma waypoints_zero (st : State) (tx ty : R) : waypoints st tx ty 0 = Return [].
Proof. reflexivity. Qed.

(** X12.  With steps = 0 [interpolated_flat_move] visits nothing and
    returns [True], whatever the target; with a negative number of steps it
    raises the ValueError of [np.linspace].  In both cases the state is
    unchanged. *)
Theorem interpolated_flat_move_no_steps
    (self : Config) (tx ty : R) (steps : Z) (delay : R) (st : State) :
  (steps <= 0)%Z ->
  interpolated_flat_move self tx ty steps delay st
  = (if (steps <? 0)%Z then Raise ValueError else Return true, st).
Proof.
  intros Hn. rewrite interpolated_flat_move_waypoints.
  destruct (Z.ltb_spec steps 0) as [Hneg | Hnonneg].
  - now rewrite waypoints_negative.
  - assert (steps = 0%Z) by lia. subst steps. now rewrite waypoints_zero.
Qed.

Lemma interpolated_flat_move_no_steps_witness :
  interpolated_flat_move (fst default_controller) 10 100 0 (1 / 10)
    (snd default_controller)
  = (Return true, snd default_controller).
Proof.
  apply (interpolated_flat_move_no_steps
           (fst default_controller) 10 100 0 (1 / 10) (snd default_controller)).
  lia.
Defined.

Lemma visit_raises (self : Config) (delay : R) (done rest : list (R * R))
    (w : R * R) (st st1 st2 : State) (e : exn) :
  0 <= delay -> Visits self done st st1 ->
  flat_move self (fst w) (snd w) st1 = (Raise e, st2) ->
  visit self delay (done ++ w :: rest) st = (Raise e, st2).
Proof.
  intros Hdelay Hv Hfail.
  induction Hv as [st | w0 rest0 d st st0 st3 Hmove _ IH].
  - destruct w as [wx wy]. simpl in Hfail. simpl. unfold bind.
    now rewrite Hfail.
  - destruct w0 as [wx0 wy0]. simpl in Hmove. simpl. unfold bind at 1.
    rewrite Hmove. unfold bind at 1, sleep. rewrite Rltb_false by lra.
    unfold ret at 1. now apply IH.
Qed.

(** X14.  The loop of [interpolated_flat_move] catches nothing: when the
    moves to the waypoints [done] return their data and the move to the
    next waypoint raises (the mapping of an angle fails),
    [interpolated_flat_move] raises the same exception, and the TCP is that
    waypoint, which was committed before the mapping. *)
Theorem interpolated_flat_move_raises
    (self : Config) (tx ty : R) (steps : Z) (delay : R)
    (done rest : list (R * R)) (w : R * R) (st st1 st2 : State) (e : exn) :
  0 <= delay ->
  waypoints st tx ty steps = Return (done ++ w :: rest) ->
  Visits self done st st1 ->
  flat_move self (fst w) (snd w) st1 = (Raise e, st2) ->
  interpolated_flat_move self tx ty steps delay st = (Raise e, st2)
  /\ (x st2, y st2) = w.
Proof.
  intros Hdelay Hw Hv Hfail.
  rewrite interpolated_flat_move_waypoints, Hw. split.
  - now apply (visit_raises self delay done rest w st st1 st2 e).
  - destruct (flat_move_raise_inv self _ _ _ _ _ Hfail) as (_ & _ & Hx & Hy & _).
    rewrite Hx, Hy. now destruct w.
Qed.

Lemma detuned_origin_move_raises (st : State) :
  exists p1 : Z,
    flat_move (fst detuned_controller) 0 0 st
    = (Raise ValueError,
       {| x := 0; y := 0; pwm := pwm st ++ [setServoPulse 0 p1] |}).
Proof.
  destruct (detuned_origin_raises st) as (d & p1 & Hs & H1 & H2).
  exists p1. rewrite flat_move_stages, Hs.
  pose proof (actuate_cases (fst detuned_controller) d st) as Hact.
  cbv zeta in Hact. rewrite H1, H2 in Hact.
  destruct (solve_target _ _ _ _ Hs) as [Hx Hy].
  now rewrite Hact, Hx, Hy.
Qed.

Lemma interpolated_flat_move_raises_witness :
  exists st2 : State,
    interpolated_flat_move (fst detuned_origin_controller) 10 0 1 (1 / 10)
      (snd detuned_origin_controller)
    = (Raise ValueError, st2)
    /\ (x st2, y st2) = (0, 0).
Proof.
  destruct (detuned_origin_move_raises (snd detuned_origin_controller))
    as (p1 & Hraise).
  eexists.
  apply (interpolated_flat_move_raises
           (fst detuned_origin_controller) 10 0 1 (1 / 10)
           [] [] (0, 0) (snd detuned_origin_controller)
           (snd detuned_origin_controller) _ ValueError).
  - lra.
  - apply waypoints_one.
  - constructor.
  - exact Hraise.
Defined.

(* ===================================================================== *)
(** * The vertical axis *)
(* ===================================================================== *)



(* ===================================================================== *)
(** * The command line *)
(* ===================================================================== *)


Lemma cli_interpolate_run (tx ty : R) (steps : Z) (delay : R) :
  cli_interpolate tx ty steps delay
  = match interpolated_flat_move (fst default_controller) tx ty steps delay
            (snd default_controller) with
    | (Return true, st') => (Exit 0, [msg_interpolated tx ty], st')
    | (Return false, st') => (Exit 1, [msg_interpolation_failed tx ty], st')
    | (Raise e, st') => (Uncaught e, [], st')
    end.
Proof. reflexivity. Qed.




(** X17.  [interpolate x y --steps n]: each run creates the default
    controller at (0, 100), a position that controller turns down, and the
    first waypoint is that position.  So for every target and every
    n >= 1 the command prints the failure line and exits with code 1,
    having sent no command; with n = 0 it prints the completion line and
    exits with code 0, also having sent none; with n < 0 the ValueError
    escapes. *)
Theorem cli_interpolate_exit (tx ty : R) (steps : Z) (delay : R) :
  ((1 <= steps)%Z ->
   cli_interpolate tx ty steps delay
   = (Exit 1, [msg_interpolation_failed tx ty], snd default_controller))
  /\ (steps = 0%Z ->
      cli_interpolate tx ty steps delay
      = (Exit 0, [msg_interpolated tx ty], snd default_controller))
  /\ ((steps < 0)%Z ->
      cli_interpolate tx ty steps delay
      = (Uncaught ValueError, [], snd default_controller)).
Proof.
  rewrite cli_interpolate_run.
  rewrite interpolated_flat_move_waypoints.
  split; [| split].
  - intros Hn.
    destruct (waypoints_first (snd default_controller) tx ty steps Hn)
      as (rest & ->).
    change (x (snd default_controller)) with 0.
    change (y (snd default_controller)) with 100.
    cbn [visit]. unfold bind.
    now rewrite (home_rejected (snd default_controller)).
  - intros ->. now rewrite waypoints_zero.
  - intros Hn. now rewrite waypoints_negative.
Qed.

Lemma cli_interpolate_exit_witness :
  cli_interpolate 0 0 10 (1 / 10)
  = (Exit 1, [msg_interpolation_failed 0 0], snd default_controller).
Proof.
  apply (proj1 (cli_interpolate_exit 0 0 10 (1 / 10))). lia.
Defined.






